(** * Go-Chat-App: the chat server of go_server/server.go

    A shallow embedding of the connection registry, the nickname
    validator, the command router and the broadcast functions of
    [server.go], and the properties of the specification checked
    against them.

    Go strings are byte sequences: they are modelled by [string], whose
    characters ([ascii]) are the 8-bit bytes.  [len(s)] is
    [String.length s] and [s[0]] is the first byte.  A run-time panic
    (index out of range) is the result [None] of the option monad. *)

From Stdlib Require Import Ascii String.
From stdpp Require Import base option list gmap strings.

Local Open Scope stdpp_scope.

(** ** Bytes and the string functions of the Go library used by the server *)

Module GoStrings.

(** The line terminator written by [fmt.Fprintln] and by the [\n] of
    the format strings. *)
Definition nl : string := String "010"%char "".

Definition byte_eqb (a b : ascii) : bool := bool_decide (a = b).

(** [trimLeftByte] and [trimRightByte] of package [strings]. *)
Fixpoint trimLeftByte (s : string) (c : ascii) : string :=
  match s with
  | String b s' => if byte_eqb b c then trimLeftByte s' c else s
  | EmptyString => EmptyString
  end.

Fixpoint trimRightByte (s : string) (c : ascii) : string :=
  match s with
  | String b s' =>
      match trimRightByte s' c with
      | EmptyString => if byte_eqb b c then EmptyString else String b EmptyString
      | r => String b r
      end
  | EmptyString => EmptyString
  end.

(** [strings.Trim(s, cutset)] for a cutset of one ASCII byte, the only
    use in the server ([strings.Trim(s, " ")]): the library trims on
    the right and then on the left. *)
Definition Trim (s : string) (c : ascii) : string :=
  trimLeftByte (trimRightByte s c) c.

(** [strings.Index] followed by the two slices [s[:m]] and
    [s[m+1:]], for a separator of one byte. *)
Fixpoint cut (sep : ascii) (s : string) : option (string * string) :=
  match s with
  | EmptyString => None
  | String b s' =>
      if byte_eqb b sep then Some (EmptyString, s')
      else match cut sep s' with
           | Some (a, rest) => Some (String b a, rest)
           | None => None
           end
  end.

(** The loop of [genSplit]: at most [k] cuts, the rest of the string
    is the last element. *)
Fixpoint genSplit (sep : ascii) (k : nat) (s : string) : list string :=
  match k with
  | O => [s]
  | S k' =>
      match cut sep s with
      | None => [s]
      | Some (a, rest) => a :: genSplit sep k' rest
      end
  end.

(** [strings.Count(s, sep)] for a separator of one byte. *)
Fixpoint Count (s : string) (sep : ascii) : nat :=
  match s with
  | EmptyString => 0
  | String b s' => (if byte_eqb b sep then 1 else 0) + Count s' sep
  end.

(** [strings.SplitN(s, sep, n)] for [n > 0]: [n - 1] cuts. *)
Definition SplitN (s : string) (sep : ascii) (n : nat) : list string :=
  genSplit sep (n - 1) s.

(** [strings.Split(s, sep)]: [n = Count(s, sep) + 1]. *)
Definition Split (s : string) (sep : ascii) : list string :=
  genSplit sep (Count s sep) s.

(** [unicode.IsLetter(rune(b))] for a byte [b]: the rune is the code
    point of the same value, below [unicode.MaxLatin1], where the
    library looks the letter property up in its Latin-1 table: the
    ASCII letters, U+00AA, U+00B5, U+00BA, U+00C0..U+00D6,
    U+00D8..U+00F6 and U+00F8..U+00FF. *)
Definition IsLetter (b : ascii) : bool :=
  let n := nat_of_ascii b in
  ((65 <=? n) && (n <=? 90)) || ((97 <=? n) && (n <=? 122))
  || (n =? 170) || (n =? 181) || (n =? 186)
  || ((192 <=? n) && (n <=? 214)) || ((216 <=? n) && (n <=? 246))
  || ((248 <=? n) && (n <=? 255)).

(** The character class [[a-zA-Z0-9_]]. *)
Definition word_byte (b : ascii) : bool :=
  let n := nat_of_ascii b in
  ((97 <=? n) && (n <=? 122)) || ((65 <=? n) && (n <=? 90))
  || ((48 <=? n) && (n <=? 57)) || (n =? 95).

Fixpoint all_bytes (p : ascii → bool) (s : string) : bool :=
  match s with
  | EmptyString => true
  | String b s' => p b && all_bytes p s'
  end.

End GoStrings.
Import GoStrings.

(** ** The nickname validator *)

(** [validNicknamePattern.MatchString] for the pattern
    [^[a-zA-Z0-9_]+$].  The library matches runes decoded from UTF-8;
    every rune of the class is one ASCII byte, and a byte above 0x7F
    belongs to a rune outside the class, so the match is: at least one
    byte, every byte in the class. *)
Definition validNicknamePattern_MatchString (s : string) : bool :=
  (1 <=? String.length s) && all_bytes word_byte s.

Definition msg_length : string := "Nickname must be between 1 and 10 characters".
Definition msg_first_letter : string := "Nickname must start with a letter".
Definition msg_char_class : string :=
  "Nickname can contain only letters, numbers, and underscores".

(** [validateNickname]: lines 170-188.  [sanitizedNickname[0]] is
    [String.get 0], whose [None] is the index panic. *)
Definition validateNickname (nickname : string) : option (bool * string) :=
  let sanitizedNickname := Trim nickname " "%char in
  if (String.length sanitizedNickname <? 1) || (10 <? String.length sanitizedNickname)
  then Some (false, msg_length)
  else
    firstLetter ← String.get 0 sanitizedNickname;
    if negb (IsLetter firstLetter) then Some (false, msg_first_letter)
    else if negb (validNicknamePattern_MatchString sanitizedNickname)
         then Some (false, msg_char_class)
         else Some (true, "").

(** ** The server state and what a handler does

    [net.Conn] is used as a map key only: a connection is a number.
    The struct [ChatServer] holds the map [users]; its [mutex] shows in
    the trace of a handler, which lists in program order the lock
    operations, the accesses to [users] and the writes to connections
    ([fmt.Fprint], [fmt.Fprintf], [fmt.Fprintln]).  The [log] calls are
    left out. *)

Abbreviation Conn := nat (only parsing).

Record ChatServer := { users : gmap nat string }.

Inductive Event :=
| Lock                                  (* server.mutex.Lock() *)
| Unlock                                (* server.mutex.Unlock() *)
| Range                                 (* for ... := range server.users *)
| Lookup (c : Conn)                     (* server.users[c] *)
| Store (c : Conn) (nickname : string)  (* server.users[c] = nickname *)
| Delete (c : Conn)                     (* delete(server.users, c) *)
| Send (c : Conn) (text : string).      (* text written to c by one call *)

#[global] Instance Event_eq_dec : EqDecision Event.
Proof. solve_decision. Defined.

(** [BroadcastType] is an [int] whose constants are numbered by [iota]. *)
Abbreviation BroadcastType := nat (only parsing).
Definition UserJoinsServer : BroadcastType := 0.
Definition UserChangesNickname : BroadcastType := 1.
Definition UserLeavesServer : BroadcastType := 2.

Definition LIST : string := "/LIST".
Definition NICK : string := "/NICK".
Definition MSG : string := "/MSG".

(** Go leaves the order of a [range] over a map open, and it may differ
    from one loop to the next.  A handler therefore takes the orders of
    its loops as an argument: [rng i] is the sequence of entries the
    [i]-th loop it starts runs through.  [range_ok] says that each is an
    enumeration of the map. *)
Abbreviation Entries := (list (nat * string)) (only parsing).

Definition range_ok (rng : nat → Entries) (s : ChatServer) : Prop :=
  ∀ i, rng i ≡ₚ map_to_list (users s).

(** The order the model itself picks when it runs a handler. *)
Definition rng_of (s : ChatServer) : nat → Entries :=
  λ _, map_to_list (users s).

(** The text written to connection [c], write by write. *)
Fixpoint sent_to (c : Conn) (tr : list Event) : list string :=
  match tr with
  | [] => []
  | Send c' text :: tr' =>
      if decide (c' = c) then text :: sent_to c tr' else sent_to c tr'
  | _ :: tr' => sent_to c tr'
  end.

(** The map after the mutations of a trace. *)
Fixpoint replay (tr : list Event) (m : gmap nat string) : gmap nat string :=
  match tr with
  | [] => m
  | Store c n :: tr' => replay tr' (<[c := n]> m)
  | Delete c :: tr' => replay tr' (delete c m)
  | _ :: tr' => replay tr' m
  end.

Definition is_lock_op (e : Event) : bool :=
  match e with Lock | Unlock => true | _ => false end.

(** ** broadcastMsg: lines 240-266 *)

(** The loop of lines 261-265. *)
Fixpoint broadcast_loop (order : Entries) (excludeConn : Conn) (message : string)
  : list Event :=
  match order with
  | [] => []
  | (conn, _) :: rest =>
      (if decide (conn ≠ excludeConn) then [Send conn (message +:+ nl)] else [])
      ++ broadcast_loop rest excludeConn message
  end.

(** The cases of the switch are [UserJoinsServer] (0),
    [UserLeavesServer] (2) and [UserChangesNickname] (1); the default
    case returns without a write.  [components[i]] of a missing
    component is the index panic. *)
Definition broadcastMsg (order : Entries) (broadcastType : BroadcastType)
    (excludeConn : Conn) (components : list string) : option (list Event) :=
  message ←
    match broadcastType with
    | 0 => c0 ← components !! 0; Some (Some (c0 +:+ " joined the chat"))
    | 2 => c0 ← components !! 0; Some (Some (c0 +:+ " left the chat"))
    | 1 => c0 ← components !! 0; c1 ← components !! 1;
           Some (Some (c0 +:+ " changed nickname to " +:+ c1))
    | _ => Some None
    end;
  match message with
  | None => Some []
  | Some message => Some (Range :: broadcast_loop order excludeConn message)
  end.

(** ** The chat fan-out: lines 211-238 *)

Definition said (senderNickname message : string) : string :=
  senderNickname +:+ " said: " +:+ message +:+ nl.

Fixpoint sendToAll_loop (order : Entries) (conn : Conn) (line : string)
  : list Event :=
  match order with
  | [] => []
  | (connection, _) :: rest =>
      (if decide (connection ≠ conn) then [Send connection line] else [])
      ++ sendToAll_loop rest conn line
  end.

Definition sendToAllUsers (order : Entries) (conn : Conn)
    (senderNickname message : string) : list Event :=
  [Lock; Range] ++ sendToAll_loop order conn (said senderNickname message)
  ++ [Unlock].

(** The inner loop of lines 230-236, for one [receiver]. *)
Fixpoint sendToSpecific_inner (order : Entries) (conn : Conn)
    (receiver line : string) : list Event :=
  match order with
  | [] => []
  | (receiverConnection, receiverNickname) :: rest =>
      (if decide (receiverNickname = receiver ∧ conn ≠ receiverConnection)
       then [Send receiverConnection line] else [])
      ++ sendToSpecific_inner rest conn receiver line
  end.

(** The outer loop of line 229; the inner loop of the [i]-th receiver
    runs in the order [rng i]. *)
Fixpoint sendToSpecific_loop (rng : nat → Entries) (i : nat) (conn : Conn)
    (recipients : list string) (line : string) : list Event :=
  match recipients with
  | [] => []
  | receiver :: rest =>
      Range :: sendToSpecific_inner (rng i) conn receiver line
      ++ sendToSpecific_loop rng (S i) conn rest line
  end.

Definition sendToSpecificUsers (rng : nat → Entries) (conn : Conn)
    (senderNickname : string) (recipients : list string) (message : string)
  : list Event :=
  [Lock] ++ sendToSpecific_loop rng 0 conn recipients (said senderNickname message)
  ++ [Unlock].

Definition must_register : string :=
  "You must register a nickname before you can send a message".

(** handleMessageCommand: lines 191-209.  [server.users[conn]] of an
    absent key is the empty string. *)
Definition handleMessageCommand (rng : nat → Entries) (s : ChatServer)
    (conn : Conn) (recipients message : string) : option (ChatServer * list Event) :=
  let parsedRecipients := Split recipients ","%char in
  let senderNickname := default "" (users s !! conn) in
  if decide (senderNickname = "")
  then Some (s, [Lookup conn; Send conn (must_register +:+ nl)])
  else
    if (length parsedRecipients =? 1) && bool_decide (parsedRecipients !! 0 = Some "*")
    then Some (s, Lookup conn :: sendToAllUsers (rng 0) conn senderNickname message)
    else Some (s, Lookup conn ::
                  sendToSpecificUsers rng conn senderNickname parsedRecipients message).

(** ** handleListCommand: lines 119-130 *)

Fixpoint list_loop (order : Entries) (conn : Conn) : list Event :=
  match order with
  | [] => []
  | (_, nickname) :: rest => Send conn (nickname +:+ " ") :: list_loop rest conn
  end.

Definition handleListCommand (order : Entries) (s : ChatServer) (conn : Conn)
  : option (ChatServer * list Event) :=
  Some (s, [Lock; Send conn "Current users: "; Range]
           ++ list_loop order conn ++ [Send conn nl; Unlock]).

(** ** handleNicknameCommand: lines 134-166 *)

Definition already_this (desiredNickname : string) : string :=
  "You're already registered as " +:+ desiredNickname +:+ nl.
Definition taken (desiredNickname : string) : string :=
  desiredNickname +:+ " already registered" +:+ nl.
Definition changed (currentNickname desiredNickname : string) : string :=
  "You changed your nickname from " +:+ currentNickname +:+ " to "
  +:+ desiredNickname +:+ nl.
Definition registered (desiredNickname : string) : string :=
  "Nickname registered as " +:+ desiredNickname +:+ nl.

(** The loop of lines 145-154: the reply of the first entry met that
    holds the desired nickname, which ends the handler, or [None] when
    the loop runs to its end. *)
Fixpoint nickname_scan (order : Entries) (conn : Conn) (desiredNickname : string)
  : option string :=
  match order with
  | [] => None
  | (userConn, userNickname) :: rest =>
      if decide (userNickname = desiredNickname)
      then Some (if decide (userConn = conn) then already_this desiredNickname
                 else taken desiredNickname)
      else nickname_scan rest conn desiredNickname
  end.

Definition handleNicknameCommand (rng : nat → Entries) (s : ChatServer)
    (conn : Conn) (desiredNickname : string) : option (ChatServer * list Event) :=
  '(validNickname, msg) ← validateNickname desiredNickname;
  if negb validNickname then Some (s, [Send conn (msg +:+ nl)])
  else
    match nickname_scan (rng 0) conn desiredNickname with
    | Some reply => Some (s, [Lock; Range; Send conn reply; Unlock])
    | None =>
        notices ←
          match users s !! conn with
          | Some currentNickname =>
              sent ← broadcastMsg (rng 1) UserChangesNickname conn
                       [currentNickname; desiredNickname];
              Some (Send conn (changed currentNickname desiredNickname) :: sent)
          | None =>
              sent ← broadcastMsg (rng 1) UserJoinsServer conn [desiredNickname];
              Some (Send conn (registered desiredNickname) :: sent)
          end;
        Some ({| users := <[conn := desiredNickname]> (users s) |},
              [Lock; Range; Lookup conn] ++ notices
              ++ [Store conn desiredNickname; Unlock])
    end.

(** ** handleUserCommands: lines 95-116 *)

Definition handleUserCommands (rng : nat → Entries) (s : ChatServer)
    (userCommand : string) (conn : Conn) : option (ChatServer * list Event) :=
  let args := SplitN userCommand " "%char 3 in
  if (1 <=? length args) && bool_decide (args !! 0 = Some LIST)
  then handleListCommand (rng 0) s conn
  else if (2 <=? length args) && bool_decide (args !! 0 = Some NICK)
  then desiredNickname ← args !! 1;
       handleNicknameCommand rng s conn desiredNickname
  else if (3 <=? length args) && bool_decide (args !! 0 = Some MSG)
  then recipients ← args !! 1;
       message ← args !! 2;
       handleMessageCommand rng s conn recipients message
  else Some (s, [Send conn ("Invalid command" +:+ nl)]).

(** ** handleClientConnection: lines 67-91

    One turn of the scanner loop, for the line [text] that
    [scanner.Text()] returns, and what follows the loop, where [err]
    says whether [scanner.Err()] is an error. *)

Definition handleClientConnection_line (rng : nat → Entries) (s : ChatServer)
    (conn : Conn) (text : string) : option (ChatServer * list Event) :=
  let sanitizedUserCommand := Trim text " "%char in
  handleUserCommands rng s sanitizedUserCommand conn.

Definition handleClientConnection_exit (rng : nat → Entries) (s : ChatServer)
    (conn : Conn) (err : bool) : option (ChatServer * list Event) :=
  sent ← (if err then Some []
          else sent ← broadcastMsg (rng 0) UserLeavesServer conn
                        [default "" (users s !! conn)];
               Some (Lookup conn :: sent));
  Some ({| users := delete conn (users s) |},
        sent ++ [Lock; Delete conn; Unlock]).

(** ** The server as a transition system

    The goroutines of the connections share the one [ChatServer]; an
    input is what one of them handles next, and handlers are taken one
    at a time. *)

Inductive Input :=
| Text (conn : Conn) (text : string)   (* scanner.Scan() read a line *)
| Closed (conn : Conn) (err : bool).   (* scanner.Scan() returned false *)

Definition serve (rng : nat → Entries) (s : ChatServer) (i : Input)
  : option (ChatServer * list Event) :=
  match i with
  | Text conn text => handleClientConnection_line rng s conn text
  | Closed conn err => handleClientConnection_exit rng s conn err
  end.

(** [main] starts from the empty map. *)
Definition initial : ChatServer := {| users := ∅ |}.

Inductive reachable : ChatServer → Prop :=
| reachable_initial : reachable initial
| reachable_serve s rng i s' tr :
    reachable s → range_ok rng s → serve rng s i = Some (s', tr) →
    reachable s'.

(** Running a list of inputs, each in the order [rng_of]. *)
Fixpoint run (inputs : list Input) (s : ChatServer) : option ChatServer :=
  match inputs with
  | [] => Some s
  | i :: rest => '(s', _) ← serve (rng_of s) s i; run rest s'
  end.

(** ** Properties of registries *)

(** No two connections hold the same nickname. *)
Definition nicknames_unique (s : ChatServer) : Prop :=
  ∀ c1 c2 n, users s !! c1 = Some n → users s !! c2 = Some n → c1 = c2.

Definition ascii_letter (b : ascii) : Prop :=
  let n := nat_of_ascii b in (65 ≤ n ≤ 90) ∨ (97 ≤ n ≤ 122).

Definition ascii_digit (b : ascii) : Prop :=
  let n := nat_of_ascii b in 48 ≤ n ≤ 57.

(** Membership of the class [[A-Za-z0-9_]]. *)
Definition in_class (b : ascii) : Prop :=
  ascii_letter b ∨ ascii_digit b ∨ b = "_"%char.

Definition bytes (s : string) : list ascii := list_ascii_of_string s.

(** The three rules of a nickname, on a string [t]: its length, its
    first character, its characters. *)
Definition nickname_rules (t : string) : Prop :=
  1 ≤ String.length t ≤ 10
  ∧ (∃ b rest, t = String b rest ∧ IsLetter b = true)
  ∧ (t ≠ "" ∧ Forall in_class (bytes t)).

(** A nickname as the data model describes it. *)
Definition wellformed_nickname (t : string) : Prop :=
  1 ≤ String.length t ≤ 10
  ∧ (∃ b rest, t = String b rest ∧ ascii_letter b)
  ∧ Forall in_class (bytes t).

(** ** The wording of the specification, for comparison with the code *)

Fixpoint trimLeftFunc (f : ascii → bool) (s : string) : string :=
  match s with
  | String b s' => if f b then trimLeftFunc f s' else s
  | EmptyString => EmptyString
  end.

Fixpoint trimRightFunc (f : ascii → bool) (s : string) : string :=
  match s with
  | String b s' =>
      match trimRightFunc f s' with
      | EmptyString => if f b then EmptyString else String b EmptyString
      | r => String b r
      end
  | EmptyString => EmptyString
  end.

(** "Trim surrounding whitespace": the blank, the tab, the line feed,
    the vertical tab, the form feed and the carriage return. *)
Definition trim_whitespace (s : string) : string :=
  trimLeftFunc Ascii.is_space (trimRightFunc Ascii.is_space s).

(** The departure rule as the specification words it: the entry is
    removed, and every other registered connection receives the notice
    of the nickname exactly when the connection held one, whatever ended
    the session. *)
Definition departure_as_specified (s : ChatServer) (conn : Conn)
    (s' : ChatServer) (tr : list Event) : Prop :=
  users s' = delete conn (users s)
  ∧ ∀ c, c ≠ conn → is_Some (users s !! c) →
      sent_to c tr = match users s !! conn with
                     | Some n => [n +:+ " left the chat" +:+ nl]
                     | None => []
                     end.

(** The reasons of a refusal as the specification quotes them. *)
Definition specified_reason_length : string :=
  "must be between 1 and 10 characters".
Definition specified_reason_first_letter : string :=
  "must start with a letter".
Definition specified_reason_char_class : string :=
  "can contain only letters, numbers, and underscores".

(** ** Auxiliary notions of the proofs *)

(** The string [s] has no byte [c]. *)
Definition no_byte (c : ascii) (s : string) : Prop :=
  Forall (λ b, b ≠ c) (bytes s).

(** The common shape of the sending loops: one pass over [order] that
    sends [line] to the key of each entry [keep] selects. *)
Definition send_where (keep : nat → string → bool) (line : string)
    (order : list (nat * string)) : list Event :=
  flat_map (λ e, if keep e.1 e.2 then [Send e.1 line] else []) order.

(** What handleNicknameCommand sends once the scan found the nickname
    free: lines 156-163, with the loop of broadcastMsg in [order]. *)
Definition nickname_notices (order : list (nat * string)) (s : ChatServer)
    (conn : Conn) (desiredNickname : string) : list Event :=
  match users s !! conn with
  | Some currentNickname =>
      Send conn (changed currentNickname desiredNickname) :: Range ::
      broadcast_loop order conn
        (currentNickname +:+ " changed nickname to " +:+ desiredNickname)
  | None =>
      Send conn (registered desiredNickname) :: Range ::
      broadcast_loop order conn (desiredNickname +:+ " joined the chat")
  end.

(** Every stored nickname passed the validator and has no blank. *)
Definition valid_entries (s : ChatServer) : Prop :=
  ∀ c n, users s !! c = Some n →
    validateNickname n = Some (true, "") ∧ no_byte " " n.

(** The events that change the map. *)
Definition mutates (e : Event) : bool :=
  match e with Store _ _ | Delete _ => true | _ => false end.

(** How often the nickname [n] is named in a list of recipients. *)
Fixpoint occurrences (n : string) (recipients : list string) : nat :=
  match recipients with
  | [] => 0
  | receiver :: rest =>
      (if decide (n = receiver) then 1 else 0) + occurrences n rest
  end.

(** ** States and inputs used as examples *)

Definition tab : ascii := "009"%char.

Definition alice_bob : ChatServer := {| users := {[1 := "alice"; 2 := "bob"]} |}.

Definition alice_bob_inputs : list Input :=
  [Text 1 "/NICK alice"; Text 2 "/NICK bob"].

(** ** The whole of handleClientConnection

    The scanner loop over the lines a connection sends, followed by the
    code after the loop, when no other goroutine runs in between.  The
    [k]-th turn of the loop runs its [range] loops in the orders
    [rngs k], the code after the loop in the orders of the next index. *)

Fixpoint scanner_loop (rngs : nat → nat → Entries) (k : nat) (s : ChatServer)
    (conn : Conn) (lines : list string) : option (ChatServer * list Event) :=
  match lines with
  | [] => Some (s, [])
  | text :: rest =>
      '(s1, tr1) ← handleClientConnection_line (rngs k) s conn text;
      '(s2, tr2) ← scanner_loop rngs (S k) s1 conn rest;
      Some (s2, tr1 ++ tr2)
  end.

Definition handleClientConnection (rngs : nat → nat → Entries) (s : ChatServer)
    (conn : Conn) (lines : list string) (err : bool)
  : option (ChatServer * list Event) :=
  '(s1, tr1) ← scanner_loop rngs 0 s conn lines;
  '(s2, tr2) ← handleClientConnection_exit (rngs (length lines)) s1 conn err;
  Some (s2, tr1 ++ tr2).

(** ** Further notions used to state properties *)

(** A string of [k] blanks. *)
Fixpoint blanks (k : nat) : string :=
  match k with
  | O => ""
  | S k' => String " " (blanks k')
  end.

(** The first field of a command line: the text before its first blank,
    or the whole line when it has none. *)
Definition first_field (userCommand : string) : string :=
  match cut " " userCommand with
  | Some (a, _) => a
  | None => userCommand
  end.

(** The use of the mutex in a trace, read from the state [held] of the
    mutex: it is taken only when free and released only when held, a
    store or a delete happens only while it is held, and it is free at
    the end. *)
Fixpoint mutex_respected (held : bool) (tr : list Event) : bool :=
  match tr with
  | [] => negb held
  | Lock :: tr' => negb held && mutex_respected true tr'
  | Unlock :: tr' => held && mutex_respected false tr'
  | e :: tr' => (negb (mutates e) || held) && mutex_respected held tr'
  end.

(** * Proofs *)

(** ** Bytes and strings *)

Lemma byte_eqb_true a b : byte_eqb a b = true ↔ a = b.
Proof. unfold byte_eqb. apply bool_decide_eq_true. Qed.

Lemma byte_eqb_false a b : byte_eqb a b = false ↔ a ≠ b.
Proof. unfold byte_eqb. apply bool_decide_eq_false. Qed.

Lemma underscore_code b : nat_of_ascii b = 95 ↔ b = "_"%char.
Proof.
  split; [|by intros ->].
  intros H. rewrite <- (ascii_nat_embedding b), H. reflexivity.
Qed.

Ltac bool_to_prop :=
  repeat first
    [ rewrite orb_true_iff | rewrite andb_true_iff
    | rewrite Nat.leb_le | rewrite Nat.eqb_eq | rewrite Nat.ltb_lt ].

Lemma word_byte_in_class b : word_byte b = true ↔ in_class b.
Proof.
  unfold word_byte, in_class, ascii_letter, ascii_digit.
  rewrite <- underscore_code. cbv zeta. bool_to_prop. lia.
Qed.

Lemma IsLetter_word_byte b :
  IsLetter b = true → in_class b → ascii_letter b.
Proof.
  unfold IsLetter, in_class, ascii_letter, ascii_digit.
  rewrite <- underscore_code. cbv zeta. bool_to_prop. lia.
Qed.

Lemma ascii_letter_IsLetter b : ascii_letter b → IsLetter b = true.
Proof. unfold IsLetter, ascii_letter. cbv zeta. bool_to_prop. lia. Qed.

Lemma all_bytes_Forall p s :
  all_bytes p s = true ↔ Forall (λ b, p b = true) (bytes s).
Proof.
  induction s as [|b s IH]; simpl.
  - split; [constructor | done].
  - rewrite andb_true_iff, Forall_cons, IH. done.
Qed.

Lemma all_word_bytes s : all_bytes word_byte s = true ↔ Forall in_class (bytes s).
Proof.
  rewrite all_bytes_Forall. apply Forall_proper; [|done].
  intros b. apply word_byte_in_class.
Qed.

Lemma MatchString_spec s :
  validNicknamePattern_MatchString s = true ↔ s ≠ "" ∧ Forall in_class (bytes s).
Proof.
  unfold validNicknamePattern_MatchString.
  rewrite andb_true_iff, all_word_bytes, Nat.leb_le.
  destruct s; simpl; [|split; intros []; split; (done || lia)].
  split; intros []; [lia | done].
Qed.

(** ** The nickname validator *)

(** The validator never panics: the length test guards the index. *)
Lemma validateNickname_total nickname : is_Some (validateNickname nickname).
Proof.
  unfold validateNickname.
  destruct (Trim nickname " ") as [|b rest]; simpl; [eauto|].
  destruct (10 <? S (String.length rest)); simpl; [eauto|].
  destruct (IsLetter b); simpl; [|eauto].
  destruct (validNicknamePattern_MatchString (String b rest)); simpl; eauto.
Qed.

(** The accepting result carries the empty message. *)
Lemma validateNickname_ok_msg nickname msg :
  validateNickname nickname = Some (true, msg) → msg = "".
Proof.
  unfold validateNickname.
  destruct (Trim nickname " ") as [|b rest]; simpl; [done|].
  destruct (10 <? S (String.length rest)); simpl; [done|].
  destruct (IsLetter b); simpl; [|done].
  destruct (validNicknamePattern_MatchString (String b rest)); simpl; congruence.
Qed.

Lemma validateNickname_rules nickname :
  validateNickname nickname = Some (true, "")
  ↔ nickname_rules (Trim nickname " ").
Proof.
  unfold validateNickname, nickname_rules.
  destruct (Trim nickname " ") as [|b rest] eqn:Ht; simpl.
  - split; [done | lia].
  - destruct (10 <? S (String.length rest)) eqn:Hlen; simpl.
    + apply Nat.ltb_lt in Hlen. split; [done | lia].
    + apply Nat.ltb_ge in Hlen.
      destruct (IsLetter b) eqn:Hb; simpl.
      * destruct (validNicknamePattern_MatchString (String b rest)) eqn:Hm; simpl.
        -- apply MatchString_spec in Hm. split; [intros _ | done].
           split; [lia|]. split; [eauto | done].
        -- split; [done|]. intros (_ & _ & Hc).
           apply MatchString_spec in Hc. congruence.
      * split; [done|]. intros (_ & (b' & r' & Heq & Hl) & _).
        injection Heq as <- <-. congruence.
Qed.

(** ** Trimming and splitting *)

Lemma trimLeftByte_no_byte c s : no_byte c s → trimLeftByte s c = s.
Proof.
  destruct s as [|b s]; simpl; [done|].
  intros H. apply Forall_cons in H as [Hb _].
  apply byte_eqb_false in Hb. by rewrite Hb.
Qed.

Lemma trimRightByte_no_byte c s : no_byte c s → trimRightByte s c = s.
Proof.
  induction s as [|b s IH]; simpl; [done|].
  intros H. apply Forall_cons in H as [Hb Hs].
  rewrite (IH Hs). apply byte_eqb_false in Hb. rewrite Hb.
  by destruct s.
Qed.

Lemma Trim_no_byte c s : no_byte c s → Trim s c = s.
Proof.
  intros H. unfold Trim. rewrite (trimRightByte_no_byte _ _ H).
  by apply trimLeftByte_no_byte.
Qed.

Lemma cut_None sep s : cut sep s = None → no_byte sep s.
Proof.
  induction s as [|b s IH]; simpl; [constructor|].
  destruct (byte_eqb b sep) eqn:Hb; [done|].
  destruct (cut sep s) as [[a rest]|]; [done|].
  intros _. constructor; [by apply byte_eqb_false | by apply IH].
Qed.

Lemma cut_Some sep s a rest : cut sep s = Some (a, rest) → no_byte sep a.
Proof.
  revert a. induction s as [|b s IH]; simpl; intros a; [done|].
  destruct (byte_eqb b sep) eqn:Hb.
  - intros [= <- _]. constructor.
  - destruct (cut sep s) as [[a' rest']|]; [|done].
    intros [= <- <-]. constructor; [by apply byte_eqb_false | by apply IH].
Qed.

(** Every element of a split but the one left after the last allowed
    cut is free of the separator. *)
Lemma genSplit_no_sep sep k s i x :
  genSplit sep k s !! i = Some x → i < k → no_byte sep x.
Proof.
  revert s i. induction k as [|k IH]; intros s i; [lia|]. simpl.
  destruct (cut sep s) as [[a rest]|] eqn:Hc.
  - destruct i as [|i]; simpl.
    + intros [= <-] _. by eapply cut_Some.
    + intros Hx Hi. apply (IH rest i); [done | lia].
  - destruct i as [|i]; simpl; [|done].
    intros [= <-] _. by apply cut_None.
Qed.

Lemma SplitN_3_second s x : SplitN s " " 3 !! 1 = Some x → no_byte " " x.
Proof. intros H. apply (genSplit_no_sep _ 2 s 1); [done | lia]. Qed.

Lemma cut_no_byte sep s : no_byte sep s → cut sep s = None.
Proof.
  induction s as [|b s IH]; simpl; [done|].
  intros H. apply Forall_cons in H as [Hb Hs].
  apply byte_eqb_false in Hb. by rewrite Hb, (IH Hs).
Qed.

Lemma trimRightByte_append c a n :
  n ≠ "" → no_byte c n → trimRightByte (a +:+ n) c = a +:+ n.
Proof.
  intros Hne Hnb. induction a as [|b a IH].
  - by apply trimRightByte_no_byte.
  - change (String b a +:+ n) with (String b (a +:+ n)). simpl. rewrite IH.
    destruct (a +:+ n) eqn:Han; [|done].
    destruct a; [by destruct Hne | discriminate Han].
Qed.

(** The line [/NICK n] of a name without blanks reaches the router as
    the two fields [/NICK] and [n]. *)
Lemma NICK_line_fields n :
  n ≠ "" → no_byte " " n →
  SplitN (Trim ("/NICK " +:+ n) " ") " " 3 = ["/NICK"; n].
Proof.
  intros Hne Hnb. unfold Trim. rewrite trimRightByte_append by done.
  change ("/NICK " +:+ n)
    with (String "/" (String "N" (String "I" (String "C" (String "K"
            (String " " n)))))).
  unfold SplitN. simpl. by rewrite (cut_no_byte _ _ Hnb).
Qed.

(** ** Enumerations of the map *)

Section Enumeration.
Context (m : gmap nat string) (order : list (nat * string)).
Hypothesis Horder : order ≡ₚ map_to_list m.

Lemma range_lookup c n : (c, n) ∈ order ↔ m !! c = Some n.
Proof. rewrite Horder. apply elem_of_map_to_list. Qed.

Lemma range_NoDup : NoDup order.*1.
Proof. rewrite Horder. apply NoDup_fst_map_to_list. Qed.

Lemma range_key c : c ∈ order.*1 ↔ is_Some (m !! c).
Proof.
  rewrite list_elem_of_fmap. split.
  - intros ([c' n] & -> & Hin). apply range_lookup in Hin. eauto.
  - intros [n Hn]. exists (c, n). split; [done | by apply range_lookup].
Qed.

End Enumeration.

(** ** What a trace sends to a connection *)

Lemma sent_to_app c tr1 tr2 :
  sent_to c (tr1 ++ tr2) = sent_to c tr1 ++ sent_to c tr2.
Proof.
  induction tr1 as [|e tr1 IH]; simpl; [done|].
  destruct e; simpl; try done.
  case_decide; simpl; by rewrite IH.
Qed.

Lemma replay_app tr1 tr2 m : replay (tr1 ++ tr2) m = replay tr2 (replay tr1 m).
Proof.
  revert m. induction tr1 as [|e tr1 IH]; intros m; simpl; [done|].
  destruct e; simpl; by rewrite IH.
Qed.

(** One pass over an enumeration of the map sends the line once to each
    connection whose entry is selected, and nothing to the others. *)
Lemma send_where_sent_list keep line order c :
  NoDup order.*1 →
  sent_to c (send_where keep line order)
  = match (list_to_map order : gmap nat string) !! c with
    | Some n => if keep c n then [line] else []
    | None => []
    end.
Proof.
  unfold send_where.
  induction order as [|[c' n] order IH]; simpl; intros Hnd; [done|].
  apply NoDup_cons in Hnd as [Hnotin Hnd].
  rewrite sent_to_app, (IH Hnd). clear IH.
  destruct (decide (c' = c)) as [->|Hne].
  - rewrite lookup_insert_eq.
    rewrite (not_elem_of_list_to_map_1 _ _ Hnotin), app_nil_r.
    destruct (keep c n); simpl; [|done]. by rewrite decide_True.
  - rewrite lookup_insert_ne by done.
    destruct (keep c' n); simpl; [|done]. by rewrite decide_False.
Qed.

Lemma send_where_sent keep line m order c :
  order ≡ₚ map_to_list m →
  sent_to c (send_where keep line order)
  = match m !! c with
    | Some n => if keep c n then [line] else []
    | None => []
    end.
Proof.
  intros Horder.
  rewrite send_where_sent_list by (by eapply range_NoDup).
  rewrite (list_to_map_proper order (map_to_list m));
    [by rewrite list_to_map_to_list | by eapply range_NoDup | done].
Qed.

(** No pass sends to a connection it does not select. *)
Lemma send_where_skipped keep line order c :
  (∀ n, keep c n = false) → sent_to c (send_where keep line order) = [].
Proof.
  intros Hskip. unfold send_where.
  induction order as [|[c' n] order IH]; simpl; [done|].
  rewrite sent_to_app, IH, app_nil_r.
  destruct (keep c' n) eqn:Hk; simpl; [|done].
  rewrite decide_False; [done|]. intros ->. by rewrite Hskip in Hk.
Qed.

Lemma broadcast_loop_send_where order excl message :
  broadcast_loop order excl message
  = send_where (λ c _, bool_decide (c ≠ excl)) (message +:+ nl) order.
Proof.
  unfold send_where. induction order as [|[c n] order IH]; simpl; [done|].
  rewrite IH. by case_bool_decide; case_decide.
Qed.

Lemma broadcast_loop_excluded order excl message :
  sent_to excl (broadcast_loop order excl message) = [].
Proof.
  rewrite broadcast_loop_send_where. apply send_where_skipped.
  intros _. apply bool_decide_eq_false_2. intros H. by apply H.
Qed.

Lemma sendToAll_loop_send_where order conn line :
  sendToAll_loop order conn line
  = send_where (λ c _, bool_decide (c ≠ conn)) line order.
Proof.
  unfold send_where. induction order as [|[c n] order IH]; simpl; [done|].
  rewrite IH. by case_bool_decide; case_decide.
Qed.

Lemma sendToSpecific_inner_send_where order conn receiver line :
  sendToSpecific_inner order conn receiver line
  = send_where (λ c n, bool_decide (n = receiver ∧ conn ≠ c)) line order.
Proof.
  unfold send_where. induction order as [|[c n] order IH]; simpl; [done|].
  rewrite IH. by case_bool_decide; case_decide.
Qed.

(** ** The scan for the desired nickname *)

Lemma nickname_scan_None order conn desired :
  nickname_scan order conn desired = None ↔ ∀ c, (c, desired) ∉ order.
Proof.
  induction order as [|[c n] order IH]; simpl.
  - split; [|done]. intros _ c. apply not_elem_of_nil.
  - case_decide as Hn.
    + subst n. split; [done|]. intros H. destruct (H c). left.
    + rewrite IH. split.
      * intros H c' Hin. apply elem_of_cons in Hin as [[= -> ->]|Hin]; [done|].
        by apply (H c').
      * intros H c' Hin. apply (H c'). by right.
Qed.

Lemma nickname_scan_found order conn desired holder :
  (holder, desired) ∈ order →
  (∀ c, (c, desired) ∈ order → c = holder) →
  nickname_scan order conn desired
  = Some (if decide (holder = conn) then already_this desired else taken desired).
Proof.
  induction order as [|[c n] order IH]; simpl; intros Hin Hall.
  - by apply elem_of_nil in Hin.
  - destruct (decide (n = desired)) as [Hn|Hn].
    + subst n. rewrite (Hall c) by left. done.
    + apply IH.
      * apply elem_of_cons in Hin as [[= -> ->]|Hin]; done.
      * intros c' Hc'. apply Hall. by right.
Qed.

(** In a map without duplicate nicknames the scan finds the one holder
    of the nickname, in whatever order it runs. *)
Lemma nickname_scan_holder s order conn desired holder :
  order ≡ₚ map_to_list (users s) → nicknames_unique s →
  users s !! holder = Some desired →
  nickname_scan order conn desired
  = Some (if decide (holder = conn) then already_this desired else taken desired).
Proof.
  intros Horder Huniq Hh. apply nickname_scan_found.
  - by apply (range_lookup _ _ Horder).
  - intros c Hc. apply (range_lookup _ _ Horder) in Hc. by eapply Huniq.
Qed.

Lemma nickname_scan_free s order conn desired :
  order ≡ₚ map_to_list (users s) →
  (∀ c, users s !! c ≠ Some desired) →
  nickname_scan order conn desired = None.
Proof.
  intros Horder Hfree. apply nickname_scan_None. intros c Hc.
  apply (range_lookup _ _ Horder) in Hc. by apply (Hfree c).
Qed.

Lemma nickname_scan_None_free s order conn desired :
  order ≡ₚ map_to_list (users s) →
  nickname_scan order conn desired = None →
  ∀ c, users s !! c ≠ Some desired.
Proof.
  intros Horder Hscan c Hc.
  apply (proj1 (nickname_scan_None _ _ _) Hscan c).
  by apply (range_lookup _ _ Horder).
Qed.

(** ** The two ways through handleNicknameCommand after validation *)

Lemma handleNicknameCommand_invalid rng s conn desired msg :
  validateNickname desired = Some (false, msg) →
  handleNicknameCommand rng s conn desired = Some (s, [Send conn (msg +:+ nl)]).
Proof. unfold handleNicknameCommand. by intros ->. Qed.

Lemma handleNicknameCommand_held rng s conn desired reply :
  validateNickname desired = Some (true, "") →
  nickname_scan (rng 0) conn desired = Some reply →
  handleNicknameCommand rng s conn desired
  = Some (s, [Lock; Range; Send conn reply; Unlock]).
Proof. unfold handleNicknameCommand. by intros -> ->. Qed.

Lemma handleNicknameCommand_set rng s conn desired :
  validateNickname desired = Some (true, "") →
  nickname_scan (rng 0) conn desired = None →
  handleNicknameCommand rng s conn desired
  = Some ({| users := <[conn := desired]> (users s) |},
          [Lock; Range; Lookup conn] ++ nickname_notices (rng 1) s conn desired
          ++ [Store conn desired; Unlock]).
Proof.
  unfold handleNicknameCommand, nickname_notices. intros -> ->. simpl.
  by destruct (users s !! conn).
Qed.

(** ** The router *)

Lemma handleUserCommands_NICK rng s userCommand conn desired rest :
  SplitN userCommand " " 3 = "/NICK" :: desired :: rest →
  handleUserCommands rng s userCommand conn
  = handleNicknameCommand rng s conn desired.
Proof. unfold handleUserCommands. by intros ->. Qed.

Lemma handleUserCommands_MSG rng s userCommand conn recipients message :
  SplitN userCommand " " 3 = ["/MSG"; recipients; message] →
  handleUserCommands rng s userCommand conn
  = handleMessageCommand rng s conn recipients message.
Proof. unfold handleUserCommands. by intros ->. Qed.

(** ** The registry invariants *)

Lemma nicknames_unique_insert s conn desired :
  nicknames_unique s → (∀ c, users s !! c ≠ Some desired) →
  nicknames_unique {| users := <[conn := desired]> (users s) |}.
Proof.
  intros Huniq Hfree c1 c2 n. simpl. rewrite !lookup_insert.
  destruct (decide (conn = c1)) as [<-|H1], (decide (conn = c2)) as [<-|H2];
    try done.
  - intros [= <-] Hc2. by destruct (Hfree c2).
  - intros Hc1 [= <-]. by destruct (Hfree c1).
  - apply Huniq.
Qed.

Lemma nicknames_unique_delete s conn :
  nicknames_unique s → nicknames_unique {| users := delete conn (users s) |}.
Proof.
  intros Huniq c1 c2 n. simpl.
  rewrite !lookup_delete_Some. intros [_ H1] [_ H2]. by eapply Huniq.
Qed.

Lemma valid_entries_insert s conn desired :
  valid_entries s → validateNickname desired = Some (true, "") →
  no_byte " " desired →
  valid_entries {| users := <[conn := desired]> (users s) |}.
Proof.
  intros Hval Hok Hnb c n. simpl. rewrite lookup_insert.
  destruct (decide (conn = c)) as [<-|Hne].
  - by intros [= <-].
  - apply Hval.
Qed.

Lemma valid_entries_delete s conn :
  valid_entries s → valid_entries {| users := delete conn (users s) |}.
Proof.
  intros Hval c n. simpl. rewrite lookup_delete_Some. intros [_ H]. by apply (Hval c).
Qed.

(** handleNicknameCommand leaves the state as it is or stores a
    validated nickname that the scan did not find. *)
Lemma handleNicknameCommand_cases rng s conn desired s' tr :
  handleNicknameCommand rng s conn desired = Some (s', tr) →
  s' = s
  ∨ (validateNickname desired = Some (true, "")
     ∧ nickname_scan (rng 0) conn desired = None
     ∧ s' = {| users := <[conn := desired]> (users s) |}).
Proof.
  destruct (validateNickname desired) as [[[] msg]|] eqn:Hv.
  - pose proof (validateNickname_ok_msg _ _ Hv) as ->.
    destruct (nickname_scan (rng 0) conn desired) as [reply|] eqn:Hs.
    + rewrite (handleNicknameCommand_held _ _ _ _ _ Hv Hs). intros [= <- _]. by left.
    + rewrite (handleNicknameCommand_set _ _ _ _ Hv Hs). intros [= <- _]. by right.
  - rewrite (handleNicknameCommand_invalid _ _ _ _ _ Hv). intros [= <- _]. by left.
  - unfold handleNicknameCommand. by rewrite Hv.
Qed.

Lemma handleMessageCommand_state rng s conn recipients message s' tr :
  handleMessageCommand rng s conn recipients message = Some (s', tr) → s' = s.
Proof.
  unfold handleMessageCommand. case_decide; [by intros [= <- _]|].
  destruct (_ && _); by intros [= <- _].
Qed.

Lemma handleUserCommands_cases rng s userCommand conn s' tr :
  handleUserCommands rng s userCommand conn = Some (s', tr) →
  s' = s
  ∨ ∃ desired,
      no_byte " " desired
      ∧ validateNickname desired = Some (true, "")
      ∧ nickname_scan (rng 0) conn desired = None
      ∧ s' = {| users := <[conn := desired]> (users s) |}.
Proof.
  unfold handleUserCommands, handleListCommand.
  destruct (_ && _); [by intros [= <- _]; left|].
  destruct (_ && _).
  { destruct (SplitN userCommand " " 3 !! 1) as [desired|] eqn:Ha; simpl; [|done].
    intros H. apply handleNicknameCommand_cases in H as [->|(Hv & Hs & ->)];
      [by left | right].
    exists desired. split; [by eapply SplitN_3_second | done]. }
  destruct (_ && _); [|by intros [= <- _]; left].
  destruct (_ !! 1); simpl; [|done]. destruct (_ !! 2); simpl; [|done].
  intros H. apply handleMessageCommand_state in H. by left.
Qed.

Lemma handleClientConnection_exit_state rng s conn err s' tr :
  handleClientConnection_exit rng s conn err = Some (s', tr) →
  s' = {| users := delete conn (users s) |}.
Proof.
  unfold handleClientConnection_exit. destruct err; simpl; by intros [= <- _].
Qed.

Lemma serve_invariant rng s i s' tr :
  range_ok rng s → serve rng s i = Some (s', tr) →
  nicknames_unique s ∧ valid_entries s →
  nicknames_unique s' ∧ valid_entries s'.
Proof.
  intros Hrng Hserve [Huniq Hval]. destruct i as [conn text|conn err]; simpl in Hserve.
  - apply handleUserCommands_cases in Hserve as [->|(d & Hnb & Hv & Hs & ->)]; [done|].
    split.
    + apply nicknames_unique_insert; [done|].
      apply (nickname_scan_None_free s (rng 0) conn); [apply Hrng | done].
    + by apply valid_entries_insert.
  - apply handleClientConnection_exit_state in Hserve as ->.
    split; [by apply nicknames_unique_delete | by apply valid_entries_delete].
Qed.

Lemma reachable_invariant s :
  reachable s → nicknames_unique s ∧ valid_entries s.
Proof.
  induction 1 as [|s rng i s' tr _ IH Hrng Hserve].
  - split; [intros c1 c2 n | intros c n]; simpl; by rewrite lookup_empty.
  - by eapply serve_invariant.
Qed.

Lemma rng_of_ok s : range_ok (rng_of s) s.
Proof. by intros i. Qed.

Lemma run_reachable inputs s s' :
  reachable s → run inputs s = Some s' → reachable s'.
Proof.
  revert s. induction inputs as [|i inputs IH]; intros s Hs; simpl.
  - by intros [= <-].
  - destruct (serve (rng_of s) s i) as [[s1 tr]|] eqn:Hserve; simpl; [|done].
    apply IH. eapply reachable_serve; [done | apply rng_of_ok | done].
Qed.

(** Uniqueness can be checked on the list of entries. *)
Lemma NoDup_snd_unique (l : list (nat * string)) c1 c2 n :
  NoDup l.*2 → (c1, n) ∈ l → (c2, n) ∈ l → c1 = c2.
Proof.
  induction l as [|[c n'] l IH]; simpl; intros Hnd H1 H2.
  - by apply elem_of_nil in H1.
  - apply NoDup_cons in Hnd as [Hnotin Hnd].
    apply elem_of_cons in H1 as [H1|H1], H2 as [H2|H2].
    + congruence.
    + injection H1 as -> ->. destruct Hnotin.
      apply list_elem_of_fmap. by exists (c2, n').
    + injection H2 as -> ->. destruct Hnotin.
      apply list_elem_of_fmap. by exists (c1, n').
    + by apply IH.
Qed.

Lemma nicknames_unique_NoDup s :
  nicknames_unique s ↔ NoDup (map_to_list (users s)).*2.
Proof.
  split.
  - intros Huniq. apply NoDup_fmap_2_strong; [|apply NoDup_map_to_list].
    intros [c1 n1] [c2 n2] H1 H2. simpl. intros <-.
    apply elem_of_map_to_list in H1, H2. by rewrite (Huniq c1 c2 n1).
  - intros Hnd c1 c2 n H1 H2.
    apply elem_of_map_to_list in H1, H2. by eapply NoDup_snd_unique.
Qed.

#[global] Instance nicknames_unique_dec s : Decision (nicknames_unique s).
Proof.
  refine (cast_if (decide (NoDup (map_to_list (users s)).*2)));
    by rewrite nicknames_unique_NoDup.
Defined.

(** ** Traces and mutations *)

Lemma handleClientConnection_exit_clean rng s conn :
  handleClientConnection_exit rng s conn false
  = Some ({| users := delete conn (users s) |},
          [Lookup conn; Range]
          ++ broadcast_loop (rng 0) conn
               (default "" (users s !! conn) +:+ " left the chat")
          ++ [Lock; Delete conn; Unlock]).
Proof. reflexivity. Qed.

Lemma handleClientConnection_exit_error rng s conn :
  handleClientConnection_exit rng s conn true
  = Some ({| users := delete conn (users s) |}, [Lock; Delete conn; Unlock]).
Proof. reflexivity. Qed.

Lemma send_where_Forall (P : Event → Prop) keep line order :
  (∀ c text, P (Send c text)) → Forall P (send_where keep line order).
Proof.
  intros HP. unfold send_where.
  induction order as [|[c n] order IH]; simpl; [constructor|].
  apply Forall_app. split; [|done].
  destruct (keep c n); by repeat constructor.
Qed.

Lemma nickname_notices_Forall (P : Event → Prop) order s conn desired :
  (∀ c text, P (Send c text)) → P Range →
  Forall P (nickname_notices order s conn desired).
Proof.
  intros HP HR. unfold nickname_notices.
  destruct (users s !! conn); repeat constructor; try done;
    rewrite broadcast_loop_send_where; by apply send_where_Forall.
Qed.

Lemma replay_unchanged tr m : Forall (λ e, mutates e = false) tr → replay tr m = m.
Proof.
  induction 1 as [|e tr He _ IH]; simpl; [done|]. by destruct e.
Qed.

Lemma nickname_notices_sent order s conn desired :
  sent_to conn (nickname_notices order s conn desired)
  = [match users s !! conn with
     | Some currentNickname => changed currentNickname desired
     | None => registered desired
     end].
Proof.
  unfold nickname_notices.
  destruct (users s !! conn); simpl; rewrite decide_True by done;
    by rewrite broadcast_loop_excluded.
Qed.

Ltac split_trace :=
  repeat first
    [ apply Forall_nil_2
    | apply Forall_cons_2; [done|]
    | apply Forall_app_2 ].

Lemma list_loop_Forall (P : Event → Prop) order conn :
  (∀ c text, P (Send c text)) → Forall P (list_loop order conn).
Proof.
  intros HP. induction order as [|[c n] order IH]; simpl; by constructor.
Qed.

Lemma sendToSpecific_loop_Forall (P : Event → Prop) rng i conn recipients line :
  (∀ c text, P (Send c text)) → P Range →
  Forall P (sendToSpecific_loop rng i conn recipients line).
Proof.
  intros HP HR. revert i.
  induction recipients as [|receiver rest IH]; intros i; simpl; [constructor|].
  constructor; [done|]. apply Forall_app. split; [|apply IH].
  rewrite sendToSpecific_inner_send_where. by apply send_where_Forall.
Qed.

Lemma handleNicknameCommand_replay rng s conn desired s' tr :
  handleNicknameCommand rng s conn desired = Some (s', tr) →
  users s' = replay tr (users s).
Proof.
  destruct (validateNickname desired) as [[[] msg]|] eqn:Hv.
  - pose proof (validateNickname_ok_msg _ _ Hv) as ->.
    destruct (nickname_scan (rng 0) conn desired) as [reply|] eqn:Hs.
    + rewrite (handleNicknameCommand_held _ _ _ _ _ Hv Hs). by intros [= <- <-].
    + rewrite (handleNicknameCommand_set _ _ _ _ Hv Hs). intros [= <- <-].
      simpl. rewrite replay_app.
      rewrite (replay_unchanged (nickname_notices _ _ _ _)); [done|].
      by apply nickname_notices_Forall.
  - rewrite (handleNicknameCommand_invalid _ _ _ _ _ Hv). by intros [= <- <-].
  - unfold handleNicknameCommand. by rewrite Hv.
Qed.

Lemma handleMessageCommand_replay rng s conn recipients message s' tr :
  handleMessageCommand rng s conn recipients message = Some (s', tr) →
  users s' = replay tr (users s).
Proof.
  unfold handleMessageCommand. case_decide; [by intros [= <- <-]|].
  destruct (_ && _); intros [= <- <-]; symmetry; apply replay_unchanged.
  - unfold sendToAllUsers. simpl. split_trace.
    rewrite sendToAll_loop_send_where. by apply send_where_Forall.
  - unfold sendToSpecificUsers. simpl. split_trace.
    by apply sendToSpecific_loop_Forall.
Qed.

(** The stores and deletes of a trace are the change of the state. *)
Lemma serve_replay rng s i s' tr :
  serve rng s i = Some (s', tr) → users s' = replay tr (users s).
Proof.
  destruct i as [conn text|conn err]; simpl.
  - unfold handleClientConnection_line, handleUserCommands, handleListCommand.
    destruct (_ && _).
    { intros [= <- <-]. symmetry. apply replay_unchanged. simpl.
      split_trace. by apply list_loop_Forall. }
    destruct (_ && _).
    { destruct (_ !! 1); simpl; [|done]. apply handleNicknameCommand_replay. }
    destruct (_ && _); [|by intros [= <- <-]].
    destruct (_ !! 1); simpl; [|done]. destruct (_ !! 2); simpl; [|done].
    apply handleMessageCommand_replay.
  - destruct err.
    + rewrite handleClientConnection_exit_error. by intros [= <- <-].
    + rewrite handleClientConnection_exit_clean. intros [= <- <-].
      simpl. rewrite replay_app.
      rewrite (replay_unchanged (broadcast_loop _ _ _)); [done|].
      rewrite broadcast_loop_send_where. by apply send_where_Forall.
Qed.

Lemma validated_nonempty n : validateNickname n = Some (true, "") → n ≠ "".
Proof. by intros H ->. Qed.

(** * The claims of the specification *)

(** ** The validator *)

Lemma nickname_rules_wellformed t : nickname_rules t ↔ wellformed_nickname t.
Proof.
  unfold nickname_rules, wellformed_nickname. split.
  - intros (Hlen & (b & rest & -> & Hb) & _ & Hall).
    split; [done|]. split; [|done].
    exists b, rest. split; [done|]. apply IsLetter_word_byte; [done|].
    simpl in Hall. by apply Forall_cons in Hall as [? _].
  - intros (Hlen & (b & rest & -> & Hb) & Hall).
    split; [done|]. split; [|done].
    exists b, rest. split; [done | by apply ascii_letter_IsLetter].
Qed.

(** C2, as worded, fails on a candidate with a tab in front: trimming
    white space leaves [abc], which obeys the three rules, while the
    code trims blanks only and refuses the candidate for its first
    character. *)
Lemma C2_tab_counterexample :
  validateNickname (String tab "abc") = Some (false, msg_first_letter)
  ∧ ¬ (fst <$> validateNickname (String tab "abc") = Some true
       ↔ nickname_rules (trim_whitespace (String tab "abc"))).
Proof.
  split; [reflexivity|]. intros [_ H].
  assert (nickname_rules (trim_whitespace (String tab "abc"))) as Hrules.
  { apply nickname_rules_wellformed. split; [simpl; lia|]. split.
    - exists "a"%char, "bc". split; [reflexivity|].
      apply IsLetter_word_byte; [|apply word_byte_in_class]; reflexivity.
    - repeat constructor; apply word_byte_in_class; reflexivity. }
  apply H in Hrules. discriminate Hrules.
Qed.

(** C2 (amended): for every candidate, validateNickname accepts it if and
    only if the candidate with its surrounding blanks (U+0020, and no
    other white space) removed has between 1 and 10 bytes, starts with a
    letter, and consists of characters of [A-Za-z0-9_] only. *)
Theorem C2_validateNickname_iff nickname :
  fst <$> validateNickname nickname = Some true
  ↔ nickname_rules (Trim nickname " ").
Proof.
  rewrite <- validateNickname_rules. split.
  - destruct (validateNickname nickname) as [[ok msg]|] eqn:Hv; simpl; [|done].
    intros [= ->]. by rewrite (validateNickname_ok_msg _ _ Hv).
  - by intros ->.
Qed.

(** C6, as worded, fails: the line written back for [1abc] is not the
    reason the specification quotes, the code puts the word Nickname in
    front of it. *)
Lemma C6_reason_counterexample :
  ∃ tr, handleNicknameCommand (rng_of initial) initial 1 "1abc" = Some (initial, tr)
        ∧ sent_to 1 tr = ["Nickname must start with a letter" +:+ nl]
        ∧ sent_to 1 tr ≠ [specified_reason_first_letter +:+ nl].
Proof. eexists. split; [reflexivity|]. split; [reflexivity | discriminate]. Qed.

(** C6 (amended): on a /NICK whose candidate fails validation, the one
    line written, to the requesting connection, is the reason of the
    first failing rule in the order length, first letter, character
    class: "Nickname must be between 1 and 10 characters", "Nickname
    must start with a letter" or "Nickname can contain only letters,
    numbers, and underscores"; the registry is unchanged. *)
Theorem C6_invalid_reply rng s conn desiredNickname :
  fst <$> validateNickname desiredNickname = Some false →
  let t := Trim desiredNickname " " in
  let first_is_letter := ∃ b rest, t = String b rest ∧ IsLetter b = true in
  ∃ reason,
    handleNicknameCommand rng s conn desiredNickname
    = Some (s, [Send conn (reason +:+ nl)])
    ∧ (¬ 1 ≤ String.length t ≤ 10 →
       reason = "Nickname must be between 1 and 10 characters")
    ∧ (1 ≤ String.length t ≤ 10 → ¬ first_is_letter →
       reason = "Nickname must start with a letter")
    ∧ (1 ≤ String.length t ≤ 10 → first_is_letter →
       reason = "Nickname can contain only letters, numbers, and underscores"
       ∧ ¬ Forall in_class (bytes t)).
Proof.
  intros Hv t first_is_letter.
  destruct (validateNickname desiredNickname) as [[ok reason]|] eqn:Hval;
    simpl in Hv; [|done].
  injection Hv as ->. exists reason.
  split; [by apply handleNicknameCommand_invalid|].
  revert Hval. unfold validateNickname. fold t. subst first_is_letter.
  destruct t as [|b rest]; simpl.
  { intros [= <-]. split; [done|]. split; lia. }
  destruct (10 <? S (String.length rest)) eqn:Hlen; simpl.
  { apply Nat.ltb_lt in Hlen. intros [= <-]. split; [done|]. split; lia. }
  apply Nat.ltb_ge in Hlen.
  destruct (IsLetter b) eqn:Hb; simpl.
  - destruct (validNicknamePattern_MatchString (String b rest)) eqn:Hm; simpl;
      [done|].
    intros [= <-]. split; [lia|]. split.
    + intros _ []. eauto.
    + intros _ _. split; [done|]. intros Hall.
      assert (validNicknamePattern_MatchString (String b rest) = true);
        [by apply MatchString_spec | congruence].
  - intros [= <-]. split; [lia|]. split; [done|].
    intros _ (b' & rest' & [= <- <-] & Hb'). congruence.
Qed.

Lemma C6_invalid_reply_witness :
  ∃ reason,
    handleNicknameCommand (rng_of alice_bob) alice_bob 3 "bad-name"
    = Some (alice_bob, [Send 3 (reason +:+ nl)])
    ∧ reason = "Nickname can contain only letters, numbers, and underscores".
Proof.
  destruct (C6_invalid_reply (rng_of alice_bob) alice_bob 3 "bad-name")
    as (reason & Hrun & _ & _ & Hclass); [reflexivity|].
  exists reason. split; [exact Hrun|].
  apply Hclass; [simpl; lia|]. exists "b"%char, "ad-name". split; reflexivity.
Defined.

(** ** The end of a session *)

(** What the clean end of a session sends to another connection. *)
Lemma clean_exit_sent rng s conn c :
  range_ok rng s → c ≠ conn →
  sent_to c ([Lookup conn; Range]
             ++ broadcast_loop (rng 0) conn
                  (default "" (users s !! conn) +:+ " left the chat")
             ++ [Lock; Delete conn; Unlock])
  = if decide (is_Some (users s !! c))
    then [(default "" (users s !! conn) +:+ " left the chat") +:+ nl]
    else [].
Proof.
  intros Hrng Hc. simpl. rewrite sent_to_app, app_nil_r.
  rewrite broadcast_loop_send_where, (send_where_sent _ _ (users s)) by apply Hrng.
  destruct (users s !! c) as [n|] eqn:Hn.
  - rewrite bool_decide_eq_true_2 by done. by rewrite decide_True.
  - rewrite decide_False; [done|]. by intros [? ?].
Qed.

(** The code sends the notice of an empty nickname when a connection
    that never registered closes cleanly. *)
Lemma clean_exit_unregistered :
  snd <$> handleClientConnection_exit (rng_of alice_bob) alice_bob 3 false
  = Some [Lookup 3; Range; Send 2 (" left the chat" +:+ nl);
          Send 1 (" left the chat" +:+ nl); Lock; Delete 3; Unlock].
Proof. vm_compute. reflexivity. Qed.

(** C1, as worded, fails: after a read error on the connection of alice
    the entry is removed, but bob, who is registered, receives no notice
    of the departure. *)
Lemma C1_read_error_counterexample :
  ∃ s' tr,
    handleClientConnection_exit (rng_of alice_bob) alice_bob 1 true = Some (s', tr)
    ∧ users alice_bob !! 1 = Some "alice"
    ∧ sent_to 2 tr = []
    ∧ ¬ departure_as_specified alice_bob 1 s' tr.
Proof.
  eexists _, _. split; [reflexivity|]. split; [by vm_compute|].
  split; [reflexivity|]. intros [_ H]. specialize (H 2).
  assert (users alice_bob !! 1 = Some "alice") as Ha by (by vm_compute).
  assert (users alice_bob !! 2 = Some "bob") as Hb by (by vm_compute).
  rewrite Ha in H. discriminate H; [lia | by rewrite Hb].
Qed.

(** C1 (amended): when a session ends, by a clean close or by a read
    error, the server removes the entry of the connection and writes
    nothing to the connection itself.  After a clean close of a
    connection that held the nickname n, it writes the line "n left the
    chat" once to every other registered connection and nothing to an
    unregistered one.  After a read error it writes to no connection. *)
Theorem C1_departure rng s conn err :
  range_ok rng s →
  ∃ tr,
    handleClientConnection_exit rng s conn err
    = Some ({| users := delete conn (users s) |}, tr)
    ∧ replay tr (users s) = delete conn (users s)
    ∧ sent_to conn tr = []
    ∧ (err = true → ∀ c, sent_to c tr = [])
    ∧ (err = false → ∀ n, users s !! conn = Some n →
       ∀ c, c ≠ conn →
         sent_to c tr = if decide (is_Some (users s !! c))
                        then [(n +:+ " left the chat") +:+ nl] else []).
Proof.
  intros Hrng. destruct err.
  - eexists. split; [apply handleClientConnection_exit_error|].
    repeat split; done.
  - eexists. split; [apply handleClientConnection_exit_clean|]. split; [|split].
    + simpl. rewrite replay_app. simpl.
      rewrite broadcast_loop_send_where. generalize (rng 0). intros order.
      unfold send_where. induction order as [|[c n] order IH]; simpl; [done|].
      rewrite replay_app, <- IH. by destruct (bool_decide _).
    + simpl. rewrite sent_to_app, broadcast_loop_excluded. done.
    + split; [done|]. intros _ n Hn c Hc.
      rewrite clean_exit_sent by done. by rewrite Hn.
Qed.

Lemma C1_departure_witness :
  ∃ tr,
    handleClientConnection_exit (rng_of alice_bob) alice_bob 1 false
    = Some ({| users := delete 1 (users alice_bob) |}, tr)
    ∧ sent_to 1 tr = []
    ∧ sent_to 2 tr = ["alice left the chat" +:+ nl].
Proof.
  destruct (C1_departure (rng_of alice_bob) alice_bob 1 false)
    as (tr & Hrun & _ & Hself & _ & Hclean); [intros i; reflexivity|].
  exists tr. split; [exact Hrun|]. split; [exact Hself|].
  rewrite (Hclean eq_refl "alice") by (vm_compute; (reflexivity || lia)).
  vm_compute. reflexivity.
Defined.

(** ** Who receives a fan-out *)

Lemma sendToSpecific_loop_excluded rng i conn recipients line :
  sent_to conn (sendToSpecific_loop rng i conn recipients line) = [].
Proof.
  revert i. induction recipients as [|receiver rest IH]; intros i; simpl; [done|].
  rewrite sent_to_app, IH, app_nil_r, sendToSpecific_inner_send_where.
  apply send_where_skipped. intros n. apply bool_decide_eq_false_2.
  intros [_ H]. by apply H.
Qed.

Lemma sendToSpecific_loop_sent rng i conn recipients line m c :
  (∀ j, rng j ≡ₚ map_to_list m) → c ≠ conn →
  sent_to c (sendToSpecific_loop rng i conn recipients line)
  = match m !! c with
    | Some n => replicate (occurrences n recipients) line
    | None => []
    end.
Proof.
  intros Hrng Hc. revert i.
  induction recipients as [|receiver rest IH]; intros i; simpl.
  - by destruct (m !! c).
  - rewrite sent_to_app, IH, sendToSpecific_inner_send_where.
    rewrite (send_where_sent _ _ m) by apply Hrng.
    destruct (m !! c) as [n|]; [|done].
    destruct (decide (n = receiver)) as [->|Hn].
    + by rewrite bool_decide_eq_true_2.
    + rewrite bool_decide_eq_false_2; [done|]. by intros [? _].
Qed.

Lemma occurrences_pos n recipients : n ∈ recipients → 0 < occurrences n recipients.
Proof.
  induction recipients as [|receiver rest IH]; simpl.
  - intros H. by apply elem_of_nil in H.
  - intros H. case_decide; [lia|].
    apply elem_of_cons in H as [?|H]; [done | by apply IH].
Qed.

Lemma sendToAllUsers_excluded order conn senderNickname message :
  sent_to conn (sendToAllUsers order conn senderNickname message) = [].
Proof.
  unfold sendToAllUsers. simpl. rewrite sent_to_app, app_nil_r.
  rewrite sendToAll_loop_send_where. apply send_where_skipped.
  intros _. apply bool_decide_eq_false_2. intros H. by apply H.
Qed.

Lemma sendToSpecificUsers_excluded rng conn senderNickname recipients message :
  sent_to conn (sendToSpecificUsers rng conn senderNickname recipients message) = [].
Proof.
  unfold sendToSpecificUsers. simpl.
  by rewrite sent_to_app, sendToSpecific_loop_excluded.
Qed.

(** C5: no fan-out writes to the connection that triggered it: neither
    the chat to everyone, nor the chat to named recipients, whatever the
    names (the own nickname of the sender included), nor a system
    broadcast of any type (joined, changed nickname, left), in whatever
    order the loops run. *)
Theorem C5_sender_excluded (order : list (nat * string))
    (rng : nat → list (nat * string)) (conn : nat)
    (senderNickname message : string) (recipients : list string)
    (broadcastType : nat) (components : list string) :
  sent_to conn (sendToAllUsers order conn senderNickname message) = []
  ∧ sent_to conn (sendToSpecificUsers rng conn senderNickname recipients message) = []
  ∧ match broadcastMsg order broadcastType conn components with
    | Some sent => sent_to conn sent = []
    | None => True
    end.
Proof.
  split; [|split].
  - apply sendToAllUsers_excluded.
  - apply sendToSpecificUsers_excluded.
  - unfold broadcastMsg.
    destruct broadcastType as [|[|[|k]]]; simpl;
      destruct components as [|c0 [|c1 rest]]; simpl;
      try done; apply broadcast_loop_excluded.
Qed.

(** ** /MSG *)

(** C8: a /MSG of a connection without a registry entry writes the one
    line "You must register a nickname before you can send a message"
    to the sender, writes to no other connection and leaves the registry
    as it is; so does the command line that the router splits into
    /MSG, recipients and message. *)
Theorem C8_unregistered_sender rng s conn :
  users s !! conn = None →
  (∀ recipients message,
     handleMessageCommand rng s conn recipients message
     = Some (s, [Lookup conn;
                 Send conn ("You must register a nickname before you can send a message"
                            +:+ nl)]))
  ∧ (∀ userCommand recipients message,
       SplitN userCommand " " 3 = ["/MSG"; recipients; message] →
       handleUserCommands rng s userCommand conn
       = Some (s, [Lookup conn;
                   Send conn ("You must register a nickname before you can send a message"
                              +:+ nl)])).
Proof.
  intros Hnone.
  assert (∀ recipients message,
    handleMessageCommand rng s conn recipients message
    = Some (s, [Lookup conn; Send conn (must_register +:+ nl)])) as Hmsg.
  { intros recipients message. unfold handleMessageCommand. by rewrite Hnone. }
  split; [exact Hmsg|].
  intros userCommand recipients message Hargs.
  unfold handleUserCommands. rewrite Hargs. simpl. apply Hmsg.
Qed.

Lemma C8_unregistered_sender_witness :
  handleUserCommands (rng_of alice_bob) alice_bob "/MSG * hi" 3
  = Some (alice_bob,
          [Lookup 3;
           Send 3 ("You must register a nickname before you can send a message"
                   +:+ nl)]).
Proof.
  destruct (C8_unregistered_sender (rng_of alice_bob) alice_bob 3) as [_ H];
    [vm_compute; reflexivity|].
  apply (H "/MSG * hi" "*" "hi"). reflexivity.
Defined.

Lemma wildcard_test (parsedRecipients : list string) :
  (length parsedRecipients =? 1) && bool_decide (parsedRecipients !! 0 = Some "*") = true
  ↔ parsedRecipients = ["*"].
Proof.
  rewrite andb_true_iff, Nat.eqb_eq, bool_decide_eq_true. split.
  - destruct parsedRecipients as [|r [|r' rest]]; simpl; intros [Hlen Hr]; try done.
    by injection Hr as ->.
  - by intros ->.
Qed.

(** C9: a /MSG of a registered sender with a list of names writes the
    line "sender said: body" to each registered connection other than
    the sender whose nickname is in the list, once for each time the
    nickname is listed; a name that no connection holds adds no write,
    and nothing at all is written to the sender, so no error and no
    notice about such a name.  The registry is unchanged. *)
Theorem C9_named_recipients rng s conn senderNickname recipients message :
  range_ok rng s →
  users s !! conn = Some senderNickname → senderNickname ≠ "" →
  Split recipients "," ≠ ["*"] →
  ∃ tr,
    handleMessageCommand rng s conn recipients message = Some (s, tr)
    ∧ sent_to conn tr = []
    ∧ (∀ c, c ≠ conn →
         sent_to c tr
         = match users s !! c with
           | Some n => replicate (occurrences n (Split recipients ","))
                         (senderNickname +:+ " said: " +:+ message +:+ nl)
           | None => []
           end)
    ∧ (∀ c n, c ≠ conn → users s !! c = Some n → n ∈ Split recipients "," →
         senderNickname +:+ " said: " +:+ message +:+ nl ∈ sent_to c tr).
Proof.
  intros Hrng Hsender Hne Hlist.
  assert (∀ c, c ≠ conn →
    sent_to c (Lookup conn :: sendToSpecificUsers rng conn senderNickname
                                (Split recipients ",") message)
    = match users s !! c with
      | Some n => replicate (occurrences n (Split recipients ","))
                    (said senderNickname message)
      | None => []
      end) as Hsent.
  { intros c Hc. unfold sendToSpecificUsers. simpl.
    rewrite sent_to_app, app_nil_r.
    by apply sendToSpecific_loop_sent. }
  eexists. split; [|split; [|split]].
  - unfold handleMessageCommand. rewrite Hsender. simpl.
    rewrite decide_False by done.
    destruct (_ && _) eqn:Hw; [|reflexivity].
    by apply wildcard_test in Hw.
  - simpl. apply sendToSpecificUsers_excluded.
  - exact Hsent.
  - intros c n Hc Hn Hin. rewrite (Hsent c Hc), Hn.
    apply occurrences_pos in Hin.
    destruct (occurrences n (Split recipients ",")); [lia|]. left.
Qed.

Lemma C9_named_recipients_witness :
  ∃ tr,
    handleMessageCommand (rng_of alice_bob) alice_bob 1 "bob,carol" "hi"
    = Some (alice_bob, tr)
    ∧ sent_to 1 tr = []
    ∧ sent_to 2 tr = ["alice said: hi" +:+ nl].
Proof.
  destruct (C9_named_recipients (rng_of alice_bob) alice_bob 1 "alice"
              "bob,carol" "hi")
    as (tr & Hrun & Hself & Hsent & _);
    [intros i; reflexivity | vm_compute; reflexivity | discriminate
    | vm_compute; discriminate |].
  exists tr. split; [exact Hrun|]. split; [exact Hself|].
  rewrite (Hsent 2) by lia. vm_compute. reflexivity.
Defined.

(** ** /NICK *)

(** C3: for a candidate that passes validation, handleNicknameCommand
    takes the mutex, scans the entries, and decides as follows.  When
    some entry holds the desired name, it writes "You're already
    registered as name" if the entry is the connection's own and "name
    already registered" otherwise, and the registry is not changed.
    Otherwise it tells the connection "You changed your nickname from
    old to name" when the connection has an entry, of value old, and
    "Nickname registered as name" when it has none, and stores the
    desired name for the connection.  The scan and the store lie
    between the one Lock and the one Unlock of the handler. *)
Theorem C3_nickname_decision rng s conn desired :
  range_ok rng s → nicknames_unique s →
  validateNickname desired = Some (true, "") →
  ∃ s' body,
    handleNicknameCommand rng s conn desired
    = Some (s', Lock :: Range :: body ++ [Unlock])
    ∧ Forall (λ e, is_lock_op e = false) body
    ∧ replay body (users s) = users s'
    ∧ ((∃ c, users s !! c = Some desired) →
       s' = s
       ∧ body = [Send conn (if decide (users s !! conn = Some desired)
                            then "You're already registered as " +:+ desired +:+ nl
                            else desired +:+ " already registered" +:+ nl)])
    ∧ ((∀ c, users s !! c ≠ Some desired) →
       users s' = <[conn := desired]> (users s)
       ∧ ∃ notices,
           body = Lookup conn :: notices ++ [Store conn desired]
           ∧ Forall (λ e, mutates e = false) notices
           ∧ sent_to conn notices
             = [match users s !! conn with
                | Some old => "You changed your nickname from " +:+ old
                              +:+ " to " +:+ desired +:+ nl
                | None => "Nickname registered as " +:+ desired +:+ nl
                end]).
Proof.
  intros Hrng Huniq Hv.
  destruct (nickname_scan (rng 0) conn desired) as [reply|] eqn:Hscan.
  - exists s, [Send conn reply].
    split; [by apply handleNicknameCommand_held|].
    split; [by repeat constructor|]. split; [done|]. split.
    + intros [holder Hholder]. split; [done|].
      rewrite (nickname_scan_holder s _ _ _ holder (Hrng 0) Huniq Hholder) in Hscan.
      injection Hscan as <-. do 2 f_equal.
      destruct (decide (holder = conn)) as [->|Hother].
      * by rewrite decide_True.
      * rewrite decide_False; [done|]. intros Hown.
        by apply Hother, (Huniq holder conn desired).
    + intros Hfree.
      by rewrite (nickname_scan_free s _ _ _ (Hrng 0) Hfree) in Hscan.
  - exists {| users := <[conn := desired]> (users s) |},
      (Lookup conn :: nickname_notices (rng 1) s conn desired
       ++ [Store conn desired]).
    split.
    { rewrite (handleNicknameCommand_set _ _ _ _ Hv Hscan). simpl.
      by rewrite <- app_assoc. }
    split.
    { constructor; [done|]. apply Forall_app. split; [|by repeat constructor].
      by apply nickname_notices_Forall. }
    split.
    { simpl. rewrite replay_app.
      rewrite (replay_unchanged (nickname_notices _ _ _ _)); [done|].
      by apply nickname_notices_Forall. }
    split.
    + intros [holder Hholder].
      by destruct (nickname_scan_None_free s _ _ _ (Hrng 0) Hscan holder).
    + intros _. split; [done|].
      exists (nickname_notices (rng 1) s conn desired).
      split; [done|]. split; [by apply nickname_notices_Forall|].
      apply nickname_notices_sent.
Qed.

Lemma C3_nickname_decision_witness :
  ∃ s' body,
    handleNicknameCommand (rng_of alice_bob) alice_bob 2 "bobby"
    = Some (s', Lock :: Range :: body ++ [Unlock])
    ∧ users s' = <[2 := "bobby"]> (users alice_bob)
    ∧ sent_to 2 body = ["You changed your nickname from bob to bobby" +:+ nl].
Proof.
  destruct (C3_nickname_decision (rng_of alice_bob) alice_bob 2 "bobby")
    as (s' & body & Hrun & _ & _ & _ & Hfree);
    [intros i; reflexivity
    | apply (bool_decide_unpack _); vm_compute; exact I
    | reflexivity |].
  exists s', body. split; [exact Hrun|].
  destruct Hfree as [Hstore (notices & -> & _ & Hsent)].
  - intros c Hc. apply elem_of_map_to_list in Hc.
    vm_compute in Hc. by repeat (apply elem_of_cons in Hc as [[=]|Hc]);
      apply elem_of_nil in Hc.
  - split; [exact Hstore|]. simpl.
    rewrite sent_to_app, Hsent. simpl. reflexivity.
Defined.

(** C4: in every state the server reaches, by whatever sequence of
    command lines and session ends of whatever connections, each handled
    as one step, no two connections hold the same nickname. *)
Theorem C4_uniqueness s : reachable s → nicknames_unique s.
Proof. intros Hreach. by apply reachable_invariant. Qed.

Lemma C4_uniqueness_witness : nicknames_unique alice_bob.
Proof.
  apply C4_uniqueness.
  apply (run_reachable alice_bob_inputs initial); [constructor|].
  vm_compute. reflexivity.
Defined.

(** C7: in a state the server reaches, a /NICK of a connection for the
    nickname n it holds, that is the line "/NICK n" or the call of
    handleNicknameCommand with n, writes "You're already registered as
    n" to the connection and does nothing else: the state is the same,
    the trace has no store and no delete, and no other connection is
    written to. *)
Theorem C7_self_registration rng s conn n :
  reachable s → range_ok rng s → users s !! conn = Some n →
  ∃ tr,
    handleNicknameCommand rng s conn n = Some (s, tr)
    ∧ handleClientConnection_line rng s conn ("/NICK " +:+ n) = Some (s, tr)
    ∧ tr = [Lock; Range; Send conn ("You're already registered as " +:+ n +:+ nl);
            Unlock]
    ∧ Forall (λ e, mutates e = false) tr
    ∧ ∀ c, c ≠ conn → sent_to c tr = [].
Proof.
  intros Hreach Hrng Hown.
  destruct (reachable_invariant s Hreach) as [Huniq Hval].
  destruct (Hval conn n Hown) as [Hv Hnb].
  assert (handleNicknameCommand rng s conn n
          = Some (s, [Lock; Range; Send conn (already_this n); Unlock])) as Hrun.
  { apply handleNicknameCommand_held; [done|].
    rewrite (nickname_scan_holder s _ _ _ conn (Hrng 0) Huniq Hown).
    by rewrite decide_True. }
  eexists. split; [exact Hrun|]. split.
  - unfold handleClientConnection_line.
    rewrite (handleUserCommands_NICK _ _ _ _ n []); [exact Hrun|].
    apply NICK_line_fields; [by apply validated_nonempty | done].
  - split; [done|]. split; [by repeat constructor|].
    intros c Hc. simpl. by rewrite decide_False.
Qed.

Lemma C7_self_registration_witness :
  handleClientConnection_line (rng_of alice_bob) alice_bob 2 "/NICK bob"
  = Some (alice_bob,
          [Lock; Range; Send 2 ("You're already registered as bob" +:+ nl); Unlock]).
Proof.
  destruct (C7_self_registration (rng_of alice_bob) alice_bob 2 "bob")
    as (tr & _ & Hline & -> & _);
    [ apply (run_reachable alice_bob_inputs initial);
        [constructor | vm_compute; reflexivity]
    | intros i; reflexivity
    | vm_compute; reflexivity |].
  exact Hline.
Defined.

(** C10: in every state the server reaches, a stored nickname passed the
    validator as it is stored: it has 1 to 10 characters, all of
    [A-Za-z0-9_], the first one a letter, so it is not the empty string;
    and a /MSG of the connection that holds it is not answered with the
    request to register: it leaves the state as it is and writes nothing
    to the sender. *)
Theorem C10_stored_nicknames s c n :
  reachable s → users s !! c = Some n →
  wellformed_nickname n ∧ n ≠ ""
  ∧ validateNickname n = Some (true, "")
  ∧ ∀ rng recipients message,
      ∃ tr, handleMessageCommand rng s c recipients message = Some (s, tr)
            ∧ sent_to c tr = [].
Proof.
  intros Hreach Hn.
  destruct (reachable_invariant s Hreach) as [_ Hval].
  destruct (Hval c n Hn) as [Hv Hnb].
  assert (wellformed_nickname n) as Hwf.
  { apply nickname_rules_wellformed. rewrite <- (Trim_no_byte " " n Hnb).
    by apply validateNickname_rules. }
  assert (n ≠ "") as Hne.
  { destruct Hwf as [Hlen _]. intros ->. simpl in Hlen. lia. }
  split; [done|]. split; [done|]. split; [done|].
  intros rng recipients message. unfold handleMessageCommand.
  rewrite Hn. simpl. rewrite decide_False by done.
  destruct (_ && _); eexists; (split; [reflexivity|]).
  - simpl. apply sendToAllUsers_excluded.
  - simpl. apply sendToSpecificUsers_excluded.
Qed.

Lemma C10_stored_nicknames_witness :
  wellformed_nickname "bob" ∧ "bob" ≠ ""
  ∧ ∃ tr, handleMessageCommand (rng_of alice_bob) alice_bob 2 "*" "hello"
          = Some (alice_bob, tr)
          ∧ sent_to 2 tr = [].
Proof.
  destruct (C10_stored_nicknames alice_bob 2 "bob") as (Hwf & Hne & _ & Hmsg);
    [ apply (run_reachable alice_bob_inputs initial);
        [constructor | vm_compute; reflexivity]
    | vm_compute; reflexivity |].
  split; [exact Hwf|]. split; [exact Hne|]. apply Hmsg.
Defined.

(** * Further properties of the code *)

(** ** Blanks around a line or a candidate *)

Lemma append_cons b a n : String b a +:+ n = String b (a +:+ n).
Proof. reflexivity. Qed.

Lemma append_empty_r s : s +:+ "" = s.
Proof. induction s as [|b s IH]; [done|]. by rewrite append_cons, IH. Qed.

Lemma append_assoc_string a b c : (a +:+ b) +:+ c = a +:+ (b +:+ c).
Proof. induction a as [|x a IH]; [done|]. by rewrite !append_cons, IH. Qed.

Lemma trimRightByte_snoc s c : trimRightByte (s +:+ String c "") c = trimRightByte s c.
Proof.
  induction s as [|b s IH].
  - simpl. unfold byte_eqb. by rewrite bool_decide_eq_true_2.
  - rewrite append_cons. simpl. by rewrite IH.
Qed.

Lemma trimRightByte_blanks s k : trimRightByte (s +:+ blanks k) " " = trimRightByte s " ".
Proof.
  revert s. induction k as [|k IH]; intros s; simpl.
  - by rewrite append_empty_r.
  - change (String " " (blanks k)) with (String " " "" +:+ blanks k).
    by rewrite <- append_assoc_string, IH, trimRightByte_snoc.
Qed.

Lemma Trim_cons s c : Trim (String c s) c = Trim s c.
Proof.
  unfold Trim. simpl. destruct (trimRightByte s c) eqn:Hr; simpl.
  - unfold byte_eqb. by rewrite bool_decide_eq_true_2.
  - unfold byte_eqb at 1. by rewrite bool_decide_eq_true_2.
Qed.

Lemma Trim_blanks j k s : Trim (blanks j +:+ s +:+ blanks k) " " = Trim s " ".
Proof.
  induction j as [|j IH].
  - change (Trim (s +:+ blanks k) " " = Trim s " ").
    unfold Trim. by rewrite trimRightByte_blanks.
  - change (blanks (S j)) with (String " " (blanks j)).
    rewrite append_cons, Trim_cons. exact IH.
Qed.

(** X1: blanks in front of and behind a line do not change how the line
    is handled, and blanks in front of and behind a candidate do not
    change the verdict of the validator. *)
Theorem surrounding_blanks_ignored rng s conn text j k :
  handleClientConnection_line rng s conn (blanks j +:+ text +:+ blanks k)
  = handleClientConnection_line rng s conn text
  ∧ validateNickname (blanks j +:+ text +:+ blanks k) = validateNickname text.
Proof.
  unfold handleClientConnection_line, validateNickname.
  by rewrite Trim_blanks.
Qed.

(** ** No handler panics *)

Lemma handleNicknameCommand_total rng s conn desired :
  is_Some (handleNicknameCommand rng s conn desired).
Proof.
  destruct (validateNickname_total desired) as [[[] msg] Hv].
  - pose proof (validateNickname_ok_msg _ _ Hv) as ->.
    destruct (nickname_scan (rng 0) conn desired) as [reply|] eqn:Hs.
    + by rewrite (handleNicknameCommand_held _ _ _ _ _ Hv Hs).
    + by rewrite (handleNicknameCommand_set _ _ _ _ Hv Hs).
  - by rewrite (handleNicknameCommand_invalid _ _ _ _ _ Hv).
Qed.

Lemma handleMessageCommand_total rng s conn recipients message :
  is_Some (handleMessageCommand rng s conn recipients message).
Proof.
  unfold handleMessageCommand. case_decide; [done|]. by destruct (_ && _).
Qed.

Lemma serve_total rng s i : is_Some (serve rng s i).
Proof.
  destruct i as [conn text|conn err]; simpl.
  - unfold handleClientConnection_line, handleUserCommands, handleListCommand.
    generalize (SplitN (Trim text " ") " " 3). intros args. cbv zeta.
    destruct ((1 <=? length args) && bool_decide (args !! 0 = Some LIST));
      [done|].
    destruct ((2 <=? length args) && bool_decide (args !! 0 = Some NICK)) eqn:H2.
    { apply andb_true_iff in H2 as [Hlen _]. apply Nat.leb_le in Hlen.
      destruct (lookup_lt_is_Some_2 args 1) as [d ->]; [lia|].
      apply handleNicknameCommand_total. }
    destruct ((3 <=? length args) && bool_decide (args !! 0 = Some MSG)) eqn:H3;
      [|done].
    apply andb_true_iff in H3 as [Hlen _]. apply Nat.leb_le in Hlen.
    destruct (lookup_lt_is_Some_2 args 1) as [r ->]; [lia|].
    destruct (lookup_lt_is_Some_2 args 2) as [m ->]; [lia|].
    apply handleMessageCommand_total.
  - destruct err; [by rewrite handleClientConnection_exit_error|].
    by rewrite handleClientConnection_exit_clean.
Qed.

(** X2: whatever the line a connection sends and however its session
    ends, the handler returns: no index expression of the server
    ([args[1]], [args[2]], [sanitizedNickname[0]], [parsedRecipients[0]],
    [components[0]], [components[1]]) is evaluated out of range, for any
    state of the registry and any order of the map iteration. *)
Theorem no_handler_panics rng s i :
  is_Some (serve rng s i)
  ∧ ∀ nickname, is_Some (validateNickname nickname).
Proof. split; [apply serve_total | apply validateNickname_total]. Qed.

(** X3: broadcastMsg itself panics exactly when its caller passes fewer
    components than the message of the broadcast type takes: one for a
    join and a departure, two for a change of nickname; for a type that
    is none of the three it writes nothing, whatever the components. *)
Theorem broadcastMsg_components order broadcastType excludeConn components :
  (is_Some (broadcastMsg order broadcastType excludeConn components)
   ↔ (broadcastType = UserJoinsServer ∨ broadcastType = UserLeavesServer →
      1 ≤ length components)
     ∧ (broadcastType = UserChangesNickname → 2 ≤ length components))
  ∧ (2 < broadcastType →
     broadcastMsg order broadcastType excludeConn components = Some []).
Proof.
  unfold UserJoinsServer, UserLeavesServer, UserChangesNickname, broadcastMsg.
  split; [split|].
  - intros Hsome.
    destruct broadcastType as [|[|[|k]]];
      destruct components as [|c0 [|c1 rest]]; simpl in *;
      try (by destruct Hsome); split; intros; (lia || done).
  - intros [Hone Htwo].
    destruct broadcastType as [|[|[|k]]];
      destruct components as [|c0 [|c1 rest]]; simpl in *; try done.
    + specialize (Hone (or_introl eq_refl)). lia.
    + specialize (Htwo eq_refl). lia.
    + specialize (Htwo eq_refl). lia.
    + specialize (Hone (or_intror eq_refl)). lia.
  - intros Hk. destruct broadcastType as [|[|[|k]]]; (lia || done).
Qed.

Lemma broadcastMsg_components_witness :
  broadcastMsg [(1, "alice")] 7 2 [] = Some [].
Proof. apply broadcastMsg_components. lia. Defined.

(** ** /LIST *)




(** ** The fields of a command line *)

Lemma cut_append sep a b :
  no_byte sep a → cut sep (a +:+ String sep b) = Some (a, b).
Proof.
  induction a as [|x a IH]; intros Hnb.
  - change ("" +:+ String sep b) with (String sep b). simpl.
    unfold byte_eqb. by rewrite bool_decide_eq_true_2.
  - apply Forall_cons in Hnb as [Hx Ha]. rewrite append_cons. simpl.
    apply byte_eqb_false in Hx. by rewrite Hx, (IH Ha).
Qed.

Lemma first_field_no_blank u : no_byte " " (first_field u).
Proof.
  unfold first_field. destruct (cut " " u) as [[a rest]|] eqn:Hc.
  - by eapply cut_Some.
  - by apply cut_None.
Qed.

Lemma SplitN_first_field u :
  ∃ rest, SplitN u " " 3 = first_field u :: rest ∧ length rest ≤ 2.
Proof.
  unfold SplitN, first_field. simpl.
  destruct (cut " " u) as [[a r]|]; [|exists []; split; [done | simpl; lia]].
  destruct (cut " " r) as [[b r']|]; eexists; (split; [reflexivity | simpl; lia]).
Qed.

Lemma SplitN_two_fields a b :
  no_byte " " a → no_byte " " b → SplitN (a +:+ " " +:+ b) " " 3 = [a; b].
Proof.
  intros Ha Hb. unfold SplitN. simpl.
  change (a +:+ " " +:+ b) with (a +:+ String " " b).
  by rewrite (cut_append _ _ _ Ha), (cut_no_byte _ _ Hb).
Qed.

Lemma SplitN_three_fields a b c :
  no_byte " " a → no_byte " " b →
  SplitN (a +:+ " " +:+ b +:+ " " +:+ c) " " 3 = [a; b; c].
Proof.
  intros Ha Hb. unfold SplitN. simpl.
  change (a +:+ " " +:+ b +:+ " " +:+ c)
    with (a +:+ String " " (b +:+ String " " c)).
  by rewrite (cut_append _ _ _ Ha), (cut_append _ _ _ Hb).
Qed.

Lemma no_blank_NICK : no_byte " " "/NICK".
Proof. repeat constructor; discriminate. Qed.

Lemma no_blank_MSG : no_byte " " "/MSG".
Proof. repeat constructor; discriminate. Qed.

Lemma no_blank_LIST : no_byte " " "/LIST".
Proof. repeat constructor; discriminate. Qed.

(** X5: a command line whose first field, the text before its first
    blank, is none of /LIST, /NICK and /MSG is answered with the line
    "Invalid command", written to the sender alone; the registry is
    unchanged.  The empty line and a command in lower case are such
    lines. *)
Theorem unknown_command_refused rng s userCommand conn :
  first_field userCommand ≠ "/LIST" →
  first_field userCommand ≠ "/NICK" →
  first_field userCommand ≠ "/MSG" →
  handleUserCommands rng s userCommand conn
  = Some (s, [Send conn ("Invalid command" +:+ nl)]).
Proof.
  intros HL HN HM. unfold handleUserCommands.
  destruct (SplitN_first_field userCommand) as (rest & -> & _). cbv zeta.
  rewrite (bool_decide_eq_false_2 (_ !! 0 = Some LIST)) by (intros [= ?]; done).
  rewrite (bool_decide_eq_false_2 (_ !! 0 = Some NICK)) by (intros [= ?]; done).
  rewrite (bool_decide_eq_false_2 (_ !! 0 = Some MSG)) by (intros [= ?]; done).
  by rewrite !andb_false_r.
Qed.

Lemma unknown_command_refused_witness :
  handleUserCommands (rng_of alice_bob) alice_bob "/nick carol" 3
  = Some (alice_bob, [Send 3 ("Invalid command" +:+ nl)]).
Proof.
  apply unknown_command_refused; vm_compute; discriminate.
Defined.

(** X6: a command that lacks a field is answered with "Invalid command"
    and changes nothing: /NICK without a candidate, /MSG without
    recipients, and /MSG with recipients but without a message. *)
Theorem incomplete_command_refused rng s conn recipients :
  no_byte " " recipients →
  handleUserCommands rng s "/NICK" conn
  = Some (s, [Send conn ("Invalid command" +:+ nl)])
  ∧ handleUserCommands rng s "/MSG" conn
    = Some (s, [Send conn ("Invalid command" +:+ nl)])
  ∧ handleUserCommands rng s ("/MSG " +:+ recipients) conn
    = Some (s, [Send conn ("Invalid command" +:+ nl)]).
Proof.
  intros Hr. split; [reflexivity|]. split; [reflexivity|].
  unfold handleUserCommands.
  change ("/MSG " +:+ recipients) with ("/MSG" +:+ " " +:+ recipients).
  by rewrite (SplitN_two_fields _ _ no_blank_MSG Hr).
Qed.

Lemma incomplete_command_refused_witness :
  handleUserCommands (rng_of alice_bob) alice_bob ("/MSG " +:+ "bob") 1
  = Some (alice_bob, [Send 1 ("Invalid command" +:+ nl)]).
Proof.
  apply (incomplete_command_refused (rng_of alice_bob) alice_bob 1 "bob").
  repeat constructor; discriminate.
Defined.

(** X7: how a command line is cut into fields.  The text after /LIST and
    a blank is ignored.  The candidate of /NICK is the text between the
    first and the second blank: what follows the second blank is
    ignored, and when a second blank follows the first at once the
    candidate is the empty string, refused for its length.  The message
    of /MSG is all the text after the second blank, its blanks kept. *)
Theorem command_fields rng s conn (first rest : string) :
  no_byte " " first →
  handleUserCommands rng s ("/LIST " +:+ rest) conn
  = handleListCommand (rng 0) s conn
  ∧ handleUserCommands rng s ("/NICK " +:+ first) conn
    = handleNicknameCommand rng s conn first
  ∧ handleUserCommands rng s ("/NICK " +:+ first +:+ " " +:+ rest) conn
    = handleNicknameCommand rng s conn first
  ∧ handleUserCommands rng s ("/NICK  " +:+ rest) conn
    = Some (s, [Send conn ("Nickname must be between 1 and 10 characters" +:+ nl)])
  ∧ handleUserCommands rng s ("/MSG " +:+ first +:+ " " +:+ rest) conn
    = handleMessageCommand rng s conn first rest.
Proof.
  intros Hf. split; [|split; [|split; [|split]]].
  - unfold handleUserCommands.
    destruct (SplitN_first_field ("/LIST " +:+ rest)) as (r & -> & _).
    change (first_field ("/LIST " +:+ rest)) with "/LIST". done.
  - unfold handleUserCommands.
    change ("/NICK " +:+ first) with ("/NICK" +:+ " " +:+ first).
    by rewrite (SplitN_two_fields _ _ no_blank_NICK Hf).
  - unfold handleUserCommands.
    change ("/NICK " +:+ first +:+ " " +:+ rest)
      with ("/NICK" +:+ " " +:+ first +:+ " " +:+ rest).
    by rewrite (SplitN_three_fields _ _ _ no_blank_NICK Hf).
  - unfold handleUserCommands.
    change ("/NICK  " +:+ rest) with ("/NICK" +:+ " " +:+ "" +:+ " " +:+ rest).
    rewrite (SplitN_three_fields "/NICK" "" rest no_blank_NICK); [|constructor].
    reflexivity.
  - unfold handleUserCommands.
    change ("/MSG " +:+ first +:+ " " +:+ rest)
      with ("/MSG" +:+ " " +:+ first +:+ " " +:+ rest).
    by rewrite (SplitN_three_fields _ _ _ no_blank_MSG Hf).
Qed.

Lemma command_fields_witness :
  handleUserCommands (rng_of alice_bob) alice_bob
    ("/MSG " +:+ "bob" +:+ " " +:+ "see  you  later") 1
  = handleMessageCommand (rng_of alice_bob) alice_bob 1 "bob" "see  you  later".
Proof.
  apply (command_fields (rng_of alice_bob) alice_bob 1 "bob" "see  you  later").
  repeat constructor; discriminate.
Defined.

(** ** Who is told what *)

(** X8: a /MSG to the wildcard of a sender that holds a nickname writes
    the line "sender said: body" once to every other registered
    connection, and to no one else; the registry is unchanged. *)
Theorem wildcard_reaches_all_others rng s conn senderNickname message :
  range_ok rng s →
  users s !! conn = Some senderNickname → senderNickname ≠ "" →
  ∃ tr,
    handleMessageCommand rng s conn "*" message = Some (s, tr)
    ∧ ∀ c, sent_to c tr
           = if decide (c ≠ conn ∧ is_Some (users s !! c))
             then [senderNickname +:+ " said: " +:+ message +:+ nl] else [].
Proof.
  intros Hrng Hsender Hne. eexists. split.
  - unfold handleMessageCommand. rewrite Hsender. simpl.
    by rewrite decide_False.
  - intros c. unfold sendToAllUsers. simpl.
    rewrite sent_to_app, app_nil_r, sendToAll_loop_send_where.
    rewrite (send_where_sent _ _ (users s)) by apply Hrng.
    destruct (users s !! c) as [n|] eqn:Hc.
    + destruct (decide (c = conn)) as [->|Hcc].
      * rewrite bool_decide_eq_false_2 by (intros H; by apply H).
        rewrite decide_False; [done|]. by intros [H _].
      * rewrite bool_decide_eq_true_2 by done. by rewrite decide_True.
    + rewrite decide_False; [done|]. by intros [_ [? ?]].
Qed.

Lemma wildcard_reaches_all_others_witness :
  ∃ tr,
    handleMessageCommand (rng_of alice_bob) alice_bob 1 "*" "hello"
    = Some (alice_bob, tr)
    ∧ sent_to 2 tr = ["alice said: hello" +:+ nl]
    ∧ sent_to 1 tr = [] ∧ sent_to 3 tr = [].
Proof.
  destruct (wildcard_reaches_all_others (rng_of alice_bob) alice_bob 1 "alice"
              "hello") as (tr & Hrun & Hsent);
    [intros i; reflexivity | vm_compute; reflexivity | discriminate |].
  exists tr. split; [exact Hrun|].
  rewrite !Hsent. vm_compute. done.
Defined.

(** X9: when /NICK gives a connection its first nickname, every other
    registered connection receives the line "name joined the chat"
    once; when it replaces the nickname old of the connection, every
    other registered connection receives "old changed nickname to name"
    once.  A connection without a nickname receives neither. *)
Theorem nickname_change_announced rng s conn desired :
  range_ok rng s →
  validateNickname desired = Some (true, "") →
  (∀ c, users s !! c ≠ Some desired) →
  ∃ s' tr,
    handleNicknameCommand rng s conn desired = Some (s', tr)
    ∧ ∀ c, c ≠ conn →
        sent_to c tr
        = if decide (is_Some (users s !! c))
          then [match users s !! conn with
                | Some old => (old +:+ " changed nickname to " +:+ desired) +:+ nl
                | None => (desired +:+ " joined the chat") +:+ nl
                end]
          else [].
Proof.
  intros Hrng Hv Hfree. eexists _, _. split.
  - apply handleNicknameCommand_set; [done|].
    by apply (nickname_scan_free s (rng 0)).
  - intros c Hc. simpl. rewrite sent_to_app. simpl. rewrite app_nil_r.
    unfold nickname_notices.
    destruct (users s !! conn) as [old|]; simpl;
      rewrite decide_False by done;
      rewrite broadcast_loop_send_where,
        (send_where_sent _ _ (users s)) by apply Hrng;
      (destruct (users s !! c) as [n|] eqn:Hn;
       [rewrite bool_decide_eq_true_2 by done; by rewrite decide_True
       |rewrite decide_False; [done | by intros [? ?]]]).
Qed.

Lemma nickname_change_announced_witness :
  ∃ s' tr,
    handleNicknameCommand (rng_of alice_bob) alice_bob 2 "bobby" = Some (s', tr)
    ∧ sent_to 1 tr = ["bob changed nickname to bobby" +:+ nl]
    ∧ sent_to 3 tr = [].
Proof.
  destruct (nickname_change_announced (rng_of alice_bob) alice_bob 2 "bobby")
    as (s' & tr & Hrun & Hsent); [intros i; reflexivity | reflexivity | |].
  - intros c Hc. apply elem_of_map_to_list in Hc.
    vm_compute in Hc. by repeat (apply elem_of_cons in Hc as [[=]|Hc]);
      apply elem_of_nil in Hc.
  - exists s', tr. split; [exact Hrun|].
    rewrite !Hsent by lia. vm_compute. done.
Defined.

(** X10: when a connection without an entry closes cleanly, the code
    still broadcasts: every registered connection receives the line
    " left the chat", the notice of an empty nickname. *)
Theorem unregistered_close_announced rng s conn :
  range_ok rng s → users s !! conn = None →
  ∃ tr,
    handleClientConnection_exit rng s conn false = Some (s, tr)
    ∧ ∀ c, sent_to c tr
           = if decide (is_Some (users s !! c))
             then [" left the chat" +:+ nl] else [].
Proof.
  intros Hrng Hnone. eexists. split.
  - rewrite handleClientConnection_exit_clean. do 2 f_equal.
    destruct s as [m]. simpl in *. f_equal. by apply delete_id.
  - intros c. destruct (decide (c = conn)) as [->|Hc].
    + simpl. rewrite sent_to_app, broadcast_loop_excluded. simpl.
      rewrite decide_False; [done|]. rewrite Hnone. by intros [? ?].
    + rewrite clean_exit_sent by done. by rewrite Hnone.
Qed.

Lemma unregistered_close_announced_witness :
  ∃ tr,
    handleClientConnection_exit (rng_of alice_bob) alice_bob 3 false
    = Some (alice_bob, tr)
    ∧ sent_to 1 tr = [" left the chat" +:+ nl].
Proof.
  destruct (unregistered_close_announced (rng_of alice_bob) alice_bob 3)
    as (tr & Hrun & Hsent); [intros i; reflexivity | vm_compute; reflexivity |].
  exists tr. split; [exact Hrun|]. rewrite Hsent. vm_compute. done.
Defined.

(** ** Nicknames as addresses *)

Lemma stored_nickname_wellformed s c n :
  reachable s → users s !! c = Some n →
  wellformed_nickname n ∧ no_byte " " n ∧ validateNickname n = Some (true, "").
Proof.
  intros Hreach Hn.
  destruct (reachable_invariant s Hreach) as [_ Hval].
  destruct (Hval c n Hn) as [Hv Hnb]. split; [|done].
  apply nickname_rules_wellformed. rewrite <- (Trim_no_byte " " n Hnb).
  by apply validateNickname_rules.
Qed.

Lemma in_class_not_separator b : in_class b → b ≠ ","%char ∧ b ≠ "*"%char.
Proof.
  intros H. apply word_byte_in_class in H.
  split; intros ->; discriminate H.
Qed.

Lemma Count_no_byte c s : no_byte c s → Count s c = 0.
Proof.
  induction s as [|b s IH]; simpl; [done|].
  intros H. apply Forall_cons in H as [Hb Hs].
  apply byte_eqb_false in Hb. by rewrite Hb, (IH Hs).
Qed.

Lemma wellformed_single_recipient n :
  wellformed_nickname n → Split n "," = [n] ∧ n ≠ "*".
Proof.
  intros (_ & (b & rest & -> & Hb) & Hall). split.
  - unfold Split. rewrite Count_no_byte; [done|].
    eapply Forall_impl; [exact Hall|]. intros x Hx.
    by apply in_class_not_separator.
  - intros [= -> _]. apply Forall_cons in Hall as [Hstar _].
    by apply in_class_not_separator in Hstar as [_ ?].
Qed.

(** X11: in a state the server reaches, a /MSG whose recipients are the
    one nickname held by the connection [target] writes the line "sender
    said: body" once to [target] and to no other connection; when the
    sender names itself nothing is written at all, no error either.
    The command line "/MSG name body" is such a /MSG. *)
Theorem private_message rng s conn target senderNickname n message :
  reachable s → range_ok rng s →
  users s !! conn = Some senderNickname → users s !! target = Some n →
  ∃ tr,
    handleMessageCommand rng s conn n message = Some (s, tr)
    ∧ handleUserCommands rng s ("/MSG " +:+ n +:+ " " +:+ message) conn
      = Some (s, tr)
    ∧ ∀ c, sent_to c tr
           = if decide (c = target ∧ c ≠ conn)
             then [senderNickname +:+ " said: " +:+ message +:+ nl] else [].
Proof.
  intros Hreach Hrng Hsender Htarget.
  destruct (reachable_invariant s Hreach) as [Huniq _].
  destruct (stored_nickname_wellformed s conn _ Hreach Hsender) as (_ & _ & Hvs).
  destruct (stored_nickname_wellformed s target _ Hreach Htarget)
    as (Hwf & Hnb & _).
  destruct (wellformed_single_recipient n Hwf) as [Hsplit Hstar].
  assert (handleMessageCommand rng s conn n message
          = Some (s, Lookup conn :: sendToSpecificUsers rng conn senderNickname
                                      [n] message)) as Hrun.
  { unfold handleMessageCommand. rewrite Hsender, Hsplit. simpl.
    rewrite decide_False by (by apply validated_nonempty).
    rewrite bool_decide_eq_false_2; [done|]. by intros [= ?]. }
  eexists. split; [exact Hrun|]. split.
  - change ("/MSG " +:+ n +:+ " " +:+ message)
      with ("/MSG" +:+ " " +:+ n +:+ " " +:+ message).
    unfold handleUserCommands.
    by rewrite (SplitN_three_fields _ _ _ no_blank_MSG Hnb).
  - intros c. destruct (decide (c = conn)) as [->|Hc].
    + cbn [sent_to]. rewrite sendToSpecificUsers_excluded.
      rewrite decide_False; [done|]. by intros [_ ?].
    + unfold sendToSpecificUsers. cbn [sent_to app].
      rewrite sent_to_app, app_nil_r.
      rewrite (sendToSpecific_loop_sent _ _ _ _ _ (users s)) by done.
      destruct (users s !! c) as [n'|] eqn:Hn'.
      * simpl. destruct (decide (n' = n)) as [->|Hne].
        -- assert (c = target) as -> by (by eapply Huniq).
           by rewrite decide_True.
        -- rewrite decide_False; [done|]. intros [-> _]. congruence.
      * rewrite decide_False; [done|]. intros [-> _]. congruence.
Qed.

Lemma private_message_witness :
  ∃ tr,
    handleUserCommands (rng_of alice_bob) alice_bob
      ("/MSG " +:+ "bob" +:+ " " +:+ "hi bob") 1 = Some (alice_bob, tr)
    ∧ sent_to 2 tr = ["alice said: hi bob" +:+ nl]
    ∧ sent_to 1 tr = [].
Proof.
  destruct (private_message (rng_of alice_bob) alice_bob 1 2 "alice" "bob" "hi bob")
    as (tr & _ & Hline & Hsent);
    [ apply (run_reachable alice_bob_inputs initial);
        [constructor | vm_compute; reflexivity]
    | intros i; reflexivity | vm_compute; reflexivity | vm_compute; reflexivity |].
  exists tr. split; [exact Hline|]. rewrite !Hsent. vm_compute. done.
Defined.

(** ** What a step does to the registry *)

Lemma handleClientConnection_line_others rng s conn text s' tr :
  handleClientConnection_line rng s conn text = Some (s', tr) →
  ∀ c, c ≠ conn → users s' !! c = users s !! c.
Proof.
  intros Hrun. apply handleUserCommands_cases in Hrun
    as [->|(d & _ & _ & _ & ->)]; [done|].
  intros c Hc. simpl. by rewrite lookup_insert_ne.
Qed.

(** X12: a command line of a connection changes no entry but its own and
    removes none: the entries of the other connections are as before,
    and a connection that had an entry still has one. *)
Theorem command_line_frame rng s conn text s' tr :
  handleClientConnection_line rng s conn text = Some (s', tr) →
  (∀ c, c ≠ conn → users s' !! c = users s !! c)
  ∧ (is_Some (users s !! conn) → is_Some (users s' !! conn))
  ∧ (users s' !! conn ≠ users s !! conn →
     ∃ desired, users s' !! conn = Some desired
                ∧ validateNickname desired = Some (true, "")).
Proof.
  intros Hrun. apply handleUserCommands_cases in Hrun
    as [->|(d & _ & Hv & _ & ->)]; [done|]. simpl.
  split; [|split].
  - intros c Hc. by rewrite lookup_insert_ne.
  - intros _. rewrite lookup_insert_eq. eauto.
  - intros _. exists d. by rewrite lookup_insert_eq.
Qed.

Lemma command_line_frame_witness :
  ∃ s', fst <$> handleClientConnection_line (rng_of alice_bob) alice_bob 2
                  "/NICK bobby" = Some s'
        ∧ users s' !! 1 = users alice_bob !! 1.
Proof.
  destruct (handleClientConnection_line (rng_of alice_bob) alice_bob 2
              "/NICK bobby") as [[s' tr]|] eqn:Hrun; [|by vm_compute in Hrun].
  exists s'. split; [reflexivity|].
  by apply (command_line_frame _ _ _ _ _ _ Hrun).
Defined.

(** X13: the end of a session removes the entry of the connection and no
    other, and in a state the server reaches its nickname is then free:
    a /NICK of any other connection for it succeeds and stores it. *)
Theorem departed_nickname_reusable rng rng' s conn n other err :
  reachable s → users s !! conn = Some n → other ≠ conn →
  range_ok rng' {| users := delete conn (users s) |} →
  ∃ s1 tr1 s2 tr2,
    handleClientConnection_exit rng s conn err = Some (s1, tr1)
    ∧ users s1 !! conn = None
    ∧ (∀ c, c ≠ conn → users s1 !! c = users s !! c)
    ∧ handleNicknameCommand rng' s1 other n = Some (s2, tr2)
    ∧ users s2 !! other = Some n.
Proof.
  intros Hreach Hn Hother Hrng'.
  destruct (reachable_invariant s Hreach) as [Huniq Hval].
  destruct (Hval conn n Hn) as [Hv _].
  assert (∀ c, delete conn (users s) !! c ≠ Some n) as Hfree.
  { intros c Hc. apply lookup_delete_Some in Hc as [Hne Hc].
    by apply Hne, (Huniq conn c n). }
  assert (∃ tr1, handleClientConnection_exit rng s conn err
                 = Some ({| users := delete conn (users s) |}, tr1))
    as [tr1 Hexit] by (destruct err; eexists; reflexivity).
  exists {| users := delete conn (users s) |}, tr1. eexists _, _.
  split; [exact Hexit|]. simpl.
  split; [by apply lookup_delete_eq|].
  split; [by intros c Hc; apply lookup_delete_ne|].
  split.
  - apply handleNicknameCommand_set; [done|].
    by apply (nickname_scan_free {| users := delete conn (users s) |} (rng' 0)).
  - simpl. by apply lookup_insert_eq.
Qed.

Lemma departed_nickname_reusable_witness :
  ∃ s1 tr1 s2 tr2,
    handleClientConnection_exit (rng_of alice_bob) alice_bob 2 true = Some (s1, tr1)
    ∧ users s1 !! 2 = None
    ∧ handleNicknameCommand (rng_of s1) s1 3 "bob" = Some (s2, tr2)
    ∧ users s2 !! 3 = Some "bob".
Proof.
  destruct (departed_nickname_reusable (rng_of alice_bob)
              (rng_of {| users := delete 2 (users alice_bob) |})
              alice_bob 2 "bob" 3 true)
    as (s1 & tr1 & s2 & tr2 & Hexit & Hgone & _ & Hnick & Hheld);
    [ apply (run_reachable alice_bob_inputs initial);
        [constructor | vm_compute; reflexivity]
    | vm_compute; reflexivity | lia | intros i; reflexivity |].
  exists s1, tr1, s2, tr2. split; [exact Hexit|]. split; [exact Hgone|].
  split; [|exact Hheld].
  assert (s1 = {| users := delete 2 (users alice_bob) |}) as ->
    by (by injection Hexit as <- _).
  exact Hnick.
Defined.

(** X14: of two connections that ask for the same free, valid nickname
    one after the other, the first is registered with it and the second
    is told "name already registered" and left as it was. *)
Theorem one_winner rng rng' s first second desired :
  range_ok rng s → validateNickname desired = Some (true, "") →
  (∀ c, users s !! c ≠ Some desired) → second ≠ first →
  range_ok rng' {| users := <[first := desired]> (users s) |} →
  ∃ s1 tr1,
    handleNicknameCommand rng s first desired = Some (s1, tr1)
    ∧ users s1 !! first = Some desired
    ∧ handleNicknameCommand rng' s1 second desired
      = Some (s1, [Lock; Range;
                   Send second (desired +:+ " already registered" +:+ nl);
                   Unlock])
    ∧ users s1 !! second = users s !! second.
Proof.
  intros Hrng Hv Hfree Hne Hrng'.
  eexists {| users := <[first := desired]> (users s) |}, _.
  split; [apply handleNicknameCommand_set;
          [done | by apply (nickname_scan_free s (rng 0))]|].
  simpl. split; [by apply lookup_insert_eq|]. split.
  - apply handleNicknameCommand_held; [done|].
    rewrite (nickname_scan_found _ _ _ first).
    + by rewrite decide_False.
    + apply (range_lookup _ _ (Hrng' 0)). simpl. by apply lookup_insert_eq.
    + intros c Hc. apply (range_lookup _ _ (Hrng' 0)) in Hc. simpl in Hc.
      destruct (decide (first = c)) as [<-|Hfc]; [done|].
      rewrite lookup_insert_ne in Hc by done. by destruct (Hfree c).
  - by apply lookup_insert_ne.
Qed.

Lemma one_winner_witness :
  ∃ s1 tr1,
    handleNicknameCommand (rng_of alice_bob) alice_bob 3 "carol" = Some (s1, tr1)
    ∧ handleNicknameCommand
        (rng_of {| users := <[3 := "carol"]> (users alice_bob) |}) s1 4 "carol"
      = Some (s1, [Lock; Range; Send 4 ("carol already registered" +:+ nl); Unlock]).
Proof.
  destruct (one_winner (rng_of alice_bob)
              (rng_of {| users := <[3 := "carol"]> (users alice_bob) |})
              alice_bob 3 4 "carol")
    as (s1 & tr1 & Hfirst & _ & Hsecond & _);
    [intros i; reflexivity | reflexivity | | lia | intros i; reflexivity |].
  - intros c Hc. apply elem_of_map_to_list in Hc.
    vm_compute in Hc. by repeat (apply elem_of_cons in Hc as [[=]|Hc]);
      apply elem_of_nil in Hc.
  - exists s1, tr1. split; [exact Hfirst | exact Hsecond].
Defined.

(** X15: in a state the server reaches, a change of nickname frees the
    old one: after a connection that held old took a free, valid
    nickname, no connection holds old, and a /NICK of another connection
    for old stores it. *)
Theorem rename_frees_old rng rng' s conn old desired other :
  reachable s → range_ok rng s →
  users s !! conn = Some old →
  validateNickname desired = Some (true, "") →
  (∀ c, users s !! c ≠ Some desired) → other ≠ conn →
  range_ok rng' {| users := <[conn := desired]> (users s) |} →
  ∃ s1 tr1 s2 tr2,
    handleNicknameCommand rng s conn desired = Some (s1, tr1)
    ∧ users s1 !! conn = Some desired
    ∧ (∀ c, users s1 !! c ≠ Some old)
    ∧ handleNicknameCommand rng' s1 other old = Some (s2, tr2)
    ∧ users s2 !! other = Some old.
Proof.
  intros Hreach Hrng Hold Hv Hfree Hother Hrng'.
  destruct (reachable_invariant s Hreach) as [Huniq Hval].
  destruct (Hval conn old Hold) as [Hvold _].
  assert (∀ c, <[conn := desired]> (users s) !! c ≠ Some old) as Hgone.
  { intros c. destruct (decide (conn = c)) as [<-|Hc].
    - rewrite lookup_insert_eq. intros [= ->]. by destruct (Hfree conn).
    - rewrite lookup_insert_ne by done. intros Hc'.
      by apply Hc, (Huniq conn c old). }
  exists {| users := <[conn := desired]> (users s) |}. do 3 eexists.
  split; [apply handleNicknameCommand_set;
          [done | by apply (nickname_scan_free s (rng 0))]|].
  simpl. split; [by apply lookup_insert_eq|]. split; [exact Hgone|]. split.
  - apply handleNicknameCommand_set; [done|].
    by apply (nickname_scan_free
                {| users := <[conn := desired]> (users s) |} (rng' 0)).
  - simpl. by apply lookup_insert_eq.
Qed.

Lemma rename_frees_old_witness :
  ∃ s1 tr1 s2 tr2,
    handleNicknameCommand (rng_of alice_bob) alice_bob 2 "bobby" = Some (s1, tr1)
    ∧ users s1 !! 2 = Some "bobby"
    ∧ handleNicknameCommand
        (rng_of {| users := <[2 := "bobby"]> (users alice_bob) |}) s1 3 "bob"
      = Some (s2, tr2)
    ∧ users s2 !! 3 = Some "bob".
Proof.
  destruct (rename_frees_old (rng_of alice_bob)
              (rng_of {| users := <[2 := "bobby"]> (users alice_bob) |})
              alice_bob 2 "bob" "bobby" 3)
    as (s1 & tr1 & s2 & tr2 & Hrun & Hnew & _ & Hsecond & Hold);
    [ apply (run_reachable alice_bob_inputs initial);
        [constructor | vm_compute; reflexivity]
    | intros i; reflexivity | vm_compute; reflexivity | reflexivity
    | | lia | intros i; reflexivity |].
  - intros c Hc. apply elem_of_map_to_list in Hc.
    vm_compute in Hc. by repeat (apply elem_of_cons in Hc as [[=]|Hc]);
      apply elem_of_nil in Hc.
  - by exists s1, tr1, s2, tr2.
Defined.

(** ** The mutex *)

Lemma mutex_respected_plain held pre rest :
  Forall (λ e, is_lock_op e = false ∧ mutates e = false) pre →
  mutex_respected held (pre ++ rest) = mutex_respected held rest.
Proof.
  induction 1 as [|e pre [Hl Hm] _ IH]; simpl; [done|].
  rewrite IH. destruct e; simpl in *; done.
Qed.

Lemma mutex_respected_app held tr1 tr2 :
  mutex_respected held tr1 = true →
  mutex_respected held (tr1 ++ tr2) = mutex_respected false tr2.
Proof.
  revert held. induction tr1 as [|e tr1 IH]; intros held; simpl.
  - by destruct held.
  - destruct e, held; simpl; try done; apply IH.
Qed.

Ltac plain_loop :=
  first
    [ apply list_loop_Forall
    | apply nickname_notices_Forall
    | apply sendToSpecific_loop_Forall
    | rewrite ?broadcast_loop_send_where, ?sendToAll_loop_send_where;
      apply send_where_Forall ];
  done.

Lemma handleNicknameCommand_mutex rng s conn desired s' tr :
  handleNicknameCommand rng s conn desired = Some (s', tr) →
  mutex_respected false tr = true.
Proof.
  destruct (validateNickname desired) as [[[] msg]|] eqn:Hv.
  - pose proof (validateNickname_ok_msg _ _ Hv) as ->.
    destruct (nickname_scan (rng 0) conn desired) as [reply|] eqn:Hs.
    + rewrite (handleNicknameCommand_held _ _ _ _ _ Hv Hs). by intros [= _ <-].
    + rewrite (handleNicknameCommand_set _ _ _ _ Hv Hs). intros [= _ <-].
      simpl. by rewrite mutex_respected_plain by plain_loop.
  - rewrite (handleNicknameCommand_invalid _ _ _ _ _ Hv). by intros [= _ <-].
  - unfold handleNicknameCommand. by rewrite Hv.
Qed.

Lemma handleMessageCommand_mutex rng s conn recipients message s' tr :
  handleMessageCommand rng s conn recipients message = Some (s', tr) →
  mutex_respected false tr = true.
Proof.
  unfold handleMessageCommand. case_decide; [by intros [= _ <-]|].
  destruct (_ && _); intros [= _ <-]; simpl;
    by rewrite mutex_respected_plain by plain_loop.
Qed.

Lemma serve_mutex rng s i s' tr :
  serve rng s i = Some (s', tr) → mutex_respected false tr = true.
Proof.
  destruct i as [conn text|conn err]; simpl.
  - unfold handleClientConnection_line, handleUserCommands, handleListCommand.
    generalize (SplitN (Trim text " ") " " 3). intros args. cbv zeta.
    destruct ((1 <=? length args) && bool_decide (args !! 0 = Some LIST)).
    { intros [= _ <-]. simpl. by rewrite mutex_respected_plain by plain_loop. }
    destruct ((2 <=? length args) && bool_decide (args !! 0 = Some NICK)).
    { destruct (args !! 1); simpl; [|done]. apply handleNicknameCommand_mutex. }
    destruct ((3 <=? length args) && bool_decide (args !! 0 = Some MSG));
      [|by intros [= _ <-]].
    destruct (args !! 1); simpl; [|done]. destruct (args !! 2); simpl; [|done].
    apply handleMessageCommand_mutex.
  - destruct err.
    + rewrite handleClientConnection_exit_error. by intros [= _ <-].
    + rewrite handleClientConnection_exit_clean. intros [= _ <-].
      simpl. by rewrite mutex_respected_plain by plain_loop.
Qed.

(** X16: in the trace of every handler the mutex is taken only when free
    and released only when held, every store into the map and every
    delete from it happens while the mutex is held, and the mutex is
    free again when the handler returns, on the early returns too. *)
Theorem mutations_under_mutex rng s i s' tr :
  serve rng s i = Some (s', tr) → mutex_respected false tr = true.
Proof. apply serve_mutex. Qed.

Lemma mutations_under_mutex_witness :
  ∃ s' tr,
    serve (rng_of alice_bob) alice_bob (Text 3 "/NICK carol") = Some (s', tr)
    ∧ Store 3 "carol" ∈ tr
    ∧ mutex_respected false tr = true.
Proof.
  destruct (serve (rng_of alice_bob) alice_bob (Text 3 "/NICK carol"))
    as [[s' tr]|] eqn:Hrun; [|by vm_compute in Hrun].
  exists s', tr. split; [reflexivity|]. split.
  - vm_compute in Hrun. injection Hrun as _ <-. set_solver.
  - by apply (mutations_under_mutex _ _ _ _ _ Hrun).
Defined.

(** ** A whole session *)

Lemma scanner_loop_frame rngs k s conn lines :
  ∃ s1 tr1,
    scanner_loop rngs k s conn lines = Some (s1, tr1)
    ∧ (∀ c, c ≠ conn → users s1 !! c = users s !! c)
    ∧ mutex_respected false tr1 = true.
Proof.
  revert k s. induction lines as [|text rest IH]; intros k s; simpl.
  - by exists s, [].
  - destruct (serve_total (rngs k) s (Text conn text)) as [[s1 tr1] H1].
    simpl in H1. rewrite H1. simpl.
    destruct (IH (S k) s1) as (s2 & tr2 & H2 & Hframe & Hm). rewrite H2. simpl.
    exists s2, (tr1 ++ tr2). split; [done|]. split.
    + intros c Hc. rewrite (Hframe c Hc).
      by apply (handleClientConnection_line_others _ _ _ _ _ _ H1).
    + rewrite mutex_respected_app; [done|].
      by apply (serve_mutex (rngs k) s (Text conn text) s1).
Qed.

(** X17: a whole session of a connection, whatever lines it sends and
    however it ends, when no other connection acts in between: the
    handler returns, the registry afterwards is the registry before
    without the entry of the connection, so what the connection
    registered is gone and every other entry is as it was, and the
    mutex is respected and free at the end. *)
Theorem session_leaves_no_entry rngs s conn lines err :
  ∃ s' tr,
    handleClientConnection rngs s conn lines err = Some (s', tr)
    ∧ users s' = delete conn (users s)
    ∧ mutex_respected false tr = true.
Proof.
  unfold handleClientConnection.
  destruct (scanner_loop_frame rngs 0 s conn lines)
    as (s1 & tr1 & -> & Hframe & Hm1). simpl.
  destruct (serve_total (rngs (length lines)) s1 (Closed conn err))
    as [[s2 tr2] H2]. simpl in H2. rewrite H2. simpl.
  exists s2, (tr1 ++ tr2). split; [done|]. split.
  - apply handleClientConnection_exit_state in H2 as ->. simpl.
    apply map_eq. intros c. destruct (decide (c = conn)) as [->|Hc].
    + by rewrite !lookup_delete_eq.
    + rewrite !lookup_delete_ne by done. by apply Hframe.
  - rewrite mutex_respected_app by done.
    by apply (serve_mutex (rngs (length lines)) s1 (Closed conn err) s2).
Qed.

(** ** The order of the map iteration *)

Lemma handleNicknameCommand_state_order rng1 rng2 s conn desired :
  range_ok rng1 s → range_ok rng2 s →
  fst <$> handleNicknameCommand rng1 s conn desired
  = fst <$> handleNicknameCommand rng2 s conn desired.
Proof.
  intros H1 H2.
  destruct (validateNickname_total desired) as [[[] msg] Hv].
  - pose proof (validateNickname_ok_msg _ _ Hv) as ->.
    destruct (nickname_scan (rng1 0) conn desired) as [r1|] eqn:Hs1,
             (nickname_scan (rng2 0) conn desired) as [r2|] eqn:Hs2.
    + by rewrite (handleNicknameCommand_held _ _ _ _ _ Hv Hs1),
                 (handleNicknameCommand_held _ _ _ _ _ Hv Hs2).
    + pose proof (nickname_scan_None_free s _ _ _ (H2 0) Hs2) as Hfree.
      by rewrite (nickname_scan_free s _ conn _ (H1 0) Hfree) in Hs1.
    + pose proof (nickname_scan_None_free s _ _ _ (H1 0) Hs1) as Hfree.
      by rewrite (nickname_scan_free s _ conn _ (H2 0) Hfree) in Hs2.
    + by rewrite (handleNicknameCommand_set _ _ _ _ Hv Hs1),
                 (handleNicknameCommand_set _ _ _ _ Hv Hs2).
  - by rewrite !(handleNicknameCommand_invalid _ _ _ _ _ Hv).
Qed.

Lemma handleMessageCommand_fst rng s conn recipients message :
  fst <$> handleMessageCommand rng s conn recipients message = Some s.
Proof.
  unfold handleMessageCommand. case_decide; [done|]. by destruct (_ && _).
Qed.

(** X18: the registry after a step does not depend on the order in which
    Go runs through the map: for any two enumerations of the entries,
    the handler of a line or of a session end leaves the same registry,
    also when the registry holds a nickname twice. *)
Theorem registry_independent_of_range_order rng1 rng2 s i :
  range_ok rng1 s → range_ok rng2 s →
  fst <$> serve rng1 s i = fst <$> serve rng2 s i.
Proof.
  intros H1 H2. destruct i as [conn text|conn err]; simpl.
  - unfold handleClientConnection_line, handleUserCommands, handleListCommand.
    generalize (SplitN (Trim text " ") " " 3). intros args. cbv zeta.
    destruct ((1 <=? length args) && bool_decide (args !! 0 = Some LIST));
      [done|].
    destruct ((2 <=? length args) && bool_decide (args !! 0 = Some NICK)).
    { destruct (args !! 1); simpl; [|done].
      by apply handleNicknameCommand_state_order. }
    destruct ((3 <=? length args) && bool_decide (args !! 0 = Some MSG));
      [|done].
    destruct (args !! 1); simpl; [|done]. destruct (args !! 2); simpl; [|done].
    by rewrite !handleMessageCommand_fst.
  - by destruct err.
Qed.

Lemma registry_independent_of_range_order_witness :
  fst <$> serve (λ _, [(1, "alice"); (2, "bob")]) alice_bob (Text 3 "/NICK bob")
  = fst <$> serve (rng_of alice_bob) alice_bob (Text 3 "/NICK bob").
Proof.
  apply registry_independent_of_range_order; intros i.
  - vm_compute. apply Permutation_swap.
  - reflexivity.
Defined.

Lemma send_where_order keep line m o1 o2 c :
  o1 ≡ₚ map_to_list m → o2 ≡ₚ map_to_list m →
  sent_to c (send_where keep line o1) = sent_to c (send_where keep line o2).
Proof.
  intros H1 H2.
  by rewrite (send_where_sent _ _ m o1), (send_where_sent _ _ m o2).
Qed.

Lemma sendToSpecific_loop_order rng1 rng2 i j m conn recipients line c :
  (∀ k, rng1 k ≡ₚ map_to_list m) → (∀ k, rng2 k ≡ₚ map_to_list m) →
  sent_to c (sendToSpecific_loop rng1 i conn recipients line)
  = sent_to c (sendToSpecific_loop rng2 j conn recipients line).
Proof.
  intros H1 H2. revert i j.
  induction recipients as [|receiver rest IH]; intros i j; simpl; [done|].
  rewrite !sent_to_app, !sendToSpecific_inner_send_where.
  by rewrite (send_where_order _ _ m (rng1 i) (rng2 j)), (IH (S i) (S j)).
Qed.

Lemma nickname_scan_Some_holder order conn desired reply :
  nickname_scan order conn desired = Some reply → ∃ c, (c, desired) ∈ order.
Proof.
  induction order as [|[c n] order IH]; simpl; [done|].
  destruct (decide (n = desired)) as [->|Hn].
  - intros _. exists c. left.
  - intros H. destruct (IH H) as [c' Hc']. exists c'. by right.
Qed.

Lemma handleNicknameCommand_sent_order rng1 rng2 s conn desired s1 tr1 s2 tr2 c :
  nicknames_unique s → range_ok rng1 s → range_ok rng2 s →
  handleNicknameCommand rng1 s conn desired = Some (s1, tr1) →
  handleNicknameCommand rng2 s conn desired = Some (s2, tr2) →
  sent_to c tr1 = sent_to c tr2.
Proof.
  intros Huniq H1 H2.
  destruct (validateNickname_total desired) as [[[] msg] Hv].
  - pose proof (validateNickname_ok_msg _ _ Hv) as ->.
    destruct (nickname_scan (rng1 0) conn desired) as [r1|] eqn:Hs1.
    + destruct (nickname_scan_Some_holder _ _ _ _ Hs1) as [holder Hh].
      apply (range_lookup _ _ (H1 0)) in Hh.
      pose proof (nickname_scan_holder s _ conn _ holder (H2 0) Huniq Hh) as Hs2.
      rewrite (nickname_scan_holder s _ conn _ holder (H1 0) Huniq Hh) in Hs1.
      injection Hs1 as <-.
      rewrite (handleNicknameCommand_held _ _ _ _ _ Hv
                 (nickname_scan_holder s _ conn _ holder (H1 0) Huniq Hh)).
      rewrite (handleNicknameCommand_held _ _ _ _ _ Hv Hs2).
      by intros [= _ <-] [= _ <-].
    + pose proof (nickname_scan_None_free s _ _ _ (H1 0) Hs1) as Hfree.
      rewrite (handleNicknameCommand_set _ _ _ _ Hv Hs1).
      rewrite (handleNicknameCommand_set _ _ _ _ Hv
                 (nickname_scan_free s _ conn _ (H2 0) Hfree)).
      intros [= _ <-] [= _ <-].
      assert (∀ message,
        sent_to c (broadcast_loop (rng1 1) conn message)
        = sent_to c (broadcast_loop (rng2 1) conn message)) as Hloop.
      { intros message. rewrite !broadcast_loop_send_where.
        by apply (send_where_order _ _ (users s)). }
      assert (sent_to c (nickname_notices (rng1 1) s conn desired)
              = sent_to c (nickname_notices (rng2 1) s conn desired)) as Hnot.
      { unfold nickname_notices.
        destruct (users s !! conn); cbn [sent_to]; by rewrite Hloop. }
      cbn [sent_to app]. by rewrite !sent_to_app, Hnot.
  - rewrite !(handleNicknameCommand_invalid _ _ _ _ _ Hv).
    by intros [= _ <-] [= _ <-].
Qed.

Lemma handleMessageCommand_sent_order rng1 rng2 s conn recipients message
    s1 tr1 s2 tr2 c :
  range_ok rng1 s → range_ok rng2 s →
  handleMessageCommand rng1 s conn recipients message = Some (s1, tr1) →
  handleMessageCommand rng2 s conn recipients message = Some (s2, tr2) →
  sent_to c tr1 = sent_to c tr2.
Proof.
  intros H1 H2. unfold handleMessageCommand.
  case_decide; [by intros [= _ <-] [= _ <-]|].
  destruct (_ && _); intros [= _ <-] [= _ <-].
  - unfold sendToAllUsers. cbn [sent_to app].
    rewrite !sent_to_app, !sendToAll_loop_send_where.
    by rewrite (send_where_order _ _ (users s) (rng1 0) (rng2 0)).
  - unfold sendToSpecificUsers. cbn [sent_to app]. rewrite !sent_to_app.
    by rewrite (sendToSpecific_loop_order rng1 rng2 0 0 (users s)).
Qed.

(** X19: what a step writes to each connection does not depend on the
    order of the map iteration either, as long as no nickname is held
    twice and the line is not a /LIST, whose answer lists the nicknames
    in that order. *)
Theorem output_independent_of_range_order rng1 rng2 s i s1 tr1 s2 tr2 :
  nicknames_unique s → range_ok rng1 s → range_ok rng2 s →
  (∀ conn text, i = Text conn text → first_field (Trim text " ") ≠ "/LIST") →
  serve rng1 s i = Some (s1, tr1) → serve rng2 s i = Some (s2, tr2) →
  ∀ c, sent_to c tr1 = sent_to c tr2.
Proof.
  intros Huniq H1 H2 Hlist Hr1 Hr2 c.
  destruct i as [conn text|conn err]; simpl in Hr1, Hr2.
  - specialize (Hlist conn text eq_refl).
    destruct (SplitN_first_field (Trim text " ")) as (rest & Hsplit & _).
    assert (SplitN (Trim text " ") " " 3 !! 0 ≠ Some LIST) as Hhead.
    { rewrite Hsplit. simpl. by intros [= ?]. }
    revert Hr1 Hr2 Hhead. clear Hsplit.
    unfold handleClientConnection_line, handleUserCommands, handleListCommand.
    generalize (SplitN (Trim text " ") " " 3). intros args. cbv zeta.
    intros Hr1 Hr2 Hhead. revert Hr1 Hr2.
    rewrite (bool_decide_eq_false_2 (args !! 0 = Some LIST)) by done.
    rewrite andb_false_r.
    destruct ((2 <=? length args) && bool_decide (args !! 0 = Some NICK)).
    { destruct (args !! 1); simpl; [|done].
      by apply handleNicknameCommand_sent_order. }
    destruct ((3 <=? length args) && bool_decide (args !! 0 = Some MSG));
      [|by intros [= _ <-] [= _ <-]].
    destruct (args !! 1) as [r|]; simpl; [|done].
    destruct (args !! 2) as [m|]; simpl; [|done].
    by apply handleMessageCommand_sent_order.
  - revert Hr1 Hr2. destruct err.
    + rewrite !handleClientConnection_exit_error. by intros [= _ <-] [= _ <-].
    + rewrite !handleClientConnection_exit_clean. intros [= _ <-] [= _ <-].
      cbn [sent_to app]. rewrite !sent_to_app, !broadcast_loop_send_where.
      by rewrite (send_where_order _ _ (users s) (rng1 0) (rng2 0)).
Qed.

Lemma output_independent_of_range_order_witness :
  ∃ s1 tr1 s2 tr2,
    serve (λ _, [(1, "alice"); (2, "bob")]) alice_bob (Text 3 "/NICK carol")
    = Some (s1, tr1)
    ∧ serve (rng_of alice_bob) alice_bob (Text 3 "/NICK carol") = Some (s2, tr2)
    ∧ tr1 ≠ tr2
    ∧ sent_to 1 tr1 = sent_to 1 tr2.
Proof.
  eexists _, _, _, _.
  split; [vm_compute; reflexivity|]. split; [vm_compute; reflexivity|].
  split; [discriminate|].
  eapply (output_independent_of_range_order
            (λ _, [(1, "alice"); (2, "bob")]) (rng_of alice_bob) alice_bob
            (Text 3 "/NICK carol")).
  - apply (bool_decide_unpack _). vm_compute. exact I.
  - intros i. vm_compute. apply Permutation_swap.
  - intros i. reflexivity.
  - intros conn text [= <- <-]. vm_compute. discriminate.
  - vm_compute. reflexivity.
  - vm_compute. reflexivity.
Defined.

(** ** Answers to the requester *)

(** X20: every /NICK is answered with exactly one write to the
    requesting connection, whatever the candidate, the registry and the
    order of the map iteration; a /MSG is answered with the one line
    "You must register a nickname before you can send a message" when
    the map has no entry for the sender or an empty one, and with
    nothing otherwise. *)
Theorem one_answer_per_request rng s conn :
  (∀ desired, ∃ s' tr,
     handleNicknameCommand rng s conn desired = Some (s', tr)
     ∧ length (sent_to conn tr) = 1)
  ∧ (∀ recipients message, ∃ tr,
       handleMessageCommand rng s conn recipients message = Some (s, tr)
       ∧ sent_to conn tr
         = (if decide (default "" (users s !! conn) = "")
            then ["You must register a nickname before you can send a message"
                  +:+ nl]
            else [])).
Proof.
  split.
  - intros desired.
    destruct (validateNickname_total desired) as [[[] msg] Hv].
    + pose proof (validateNickname_ok_msg _ _ Hv) as ->.
      destruct (nickname_scan (rng 0) conn desired) as [reply|] eqn:Hs.
      * eexists _, _. split; [by apply handleNicknameCommand_held|].
        simpl. by rewrite decide_True.
      * eexists _, _. split; [by apply handleNicknameCommand_set|].
        cbn [sent_to app]. rewrite sent_to_app, nickname_notices_sent. done.
    + eexists _, _. split; [by apply handleNicknameCommand_invalid|].
      simpl. by rewrite decide_True.
  - intros recipients message. unfold handleMessageCommand.
    destruct (decide (default "" (users s !! conn) = "")) as [He|He].
    + eexists. split; [reflexivity|]. simpl. by rewrite decide_True.
    + destruct (_ && _); eexists; (split; [reflexivity|]); cbn [sent_to].
      * apply sendToAllUsers_excluded.
      * apply sendToSpecificUsers_excluded.
Qed.

(** ** Candidates that are not ASCII *)

Lemma nat_of_ascii_bound b : nat_of_ascii b < 256.
Proof. destruct b as [[] [] [] [] [] [] [] []]; vm_compute; lia. Qed.

(** X21: the first-letter rule reads the first byte of the candidate as
    a code point of its own.  A candidate of at most 10 bytes whose
    first byte is from 0xC0 to 0xFF, except 0xD7 and 0xF7, such as the
    first byte of a character written in UTF-8 with two bytes or more,
    passes that rule, whatever the character is, and is refused by the
    next one, with the reason of the character class. *)
Theorem high_first_byte_refused_for_class nickname b rest :
  Trim nickname " " = String b rest →
  String.length rest < 10 →
  192 ≤ nat_of_ascii b → nat_of_ascii b ≠ 215 → nat_of_ascii b ≠ 247 →
  validateNickname nickname
  = Some (false, "Nickname can contain only letters, numbers, and underscores").
Proof.
  intros Ht Hlen Hb H215 H247. unfold validateNickname. rewrite Ht. simpl.
  pose proof (nat_of_ascii_bound b) as Hbound.
  assert ((10 <? S (String.length rest)) = false) as ->
    by (apply Nat.ltb_ge; lia).
  assert (IsLetter b = true) as ->.
  { unfold IsLetter. cbv zeta. bool_to_prop. lia. }
  assert (word_byte b = false) as Hw.
  { apply not_true_is_false. rewrite word_byte_in_class.
    unfold in_class, ascii_letter, ascii_digit. rewrite <- underscore_code.
    cbv zeta. lia. }
  unfold validNicknamePattern_MatchString. simpl. by rewrite Hw.
Qed.

Lemma high_first_byte_refused_for_class_witness :
  validateNickname (String "226" (String "130" (String "172" "uro")))
  = Some (false, "Nickname can contain only letters, numbers, and underscores").
Proof.
  apply (high_first_byte_refused_for_class _ "226"
           (String "130" (String "172" "uro")));
    [reflexivity | simpl; lia | vm_compute; lia
    | vm_compute; lia | vm_compute; lia].
Defined.
